(** * AwesomeTTS website: the VoiceText relay ([relays/__init__.py])

    A shallow embedding of the WSGI callable [voicetext] and of the
    module-level state it works on, followed by the properties of its
    request validation, rate limiting and upstream handling.

    Python values are modelled as follows.
    - [str] (a Python 2 byte string) is [string]; [len] is [String.length].
    - [int] is [Z].
    - the WSGI [environ] is a [gmap string string].
    - every [lookup] dict of a [LimitLevel] is a [gmap string info]; the two
      keys ['created'] and ['calls'] of an accounting entry are the fields
      of the record [info].
    - the logging calls, the clock and the upstream service are explicit:
      [World] carries the rate-limit levels, the log and the network
      events; [now] and the behaviour of the upstream are arguments.
    - one call of the handler runs from its first line to its [return];
      [_limit_lock] and the threads of the server have no counterpart. *)

From Stdlib Require Import ZArith String Ascii List Bool Lia.
From stdpp Require Import base option list gmap fin_maps strings pretty.

#[local] Set Warnings "-clear-no-such-hyp".

Local Open Scope string_scope.
Local Open Scope list_scope.
Local Open Scope Z_scope.

(** ** Strings *)

Module Str.

(** [sub in s] *)
Fixpoint contains (sub s : string) : bool :=
  String.prefix sub s ||
  match s with
  | EmptyString => false
  | String _ s' => contains sub s'
  end.

(** [s.count(c)] for a one-character [c] *)
Fixpoint count (c : ascii) (s : string) : nat :=
  match s with
  | EmptyString => 0%nat
  | String a s' => ((if Ascii.eqb a c then 1 else 0) + count c s')%nat
  end.

(** [s.startswith(p)] *)
Definition startswith (s p : string) : bool := String.prefix p s.

(** [sep.join(l)] *)
Fixpoint join (sep : string) (l : list string) : string :=
  match l with
  | [] => ""
  | [x] => x
  | x :: l' => x +:+ sep +:+ join sep l'
  end.

(** [s.split(c)] for a one-character [c] *)
Fixpoint split (c : ascii) (s : string) : list string :=
  match s with
  | EmptyString => [""]
  | String a s' =>
      if Ascii.eqb a c then "" :: split c s'
      else match split c s' with
           | [] => [String a ""]
           | w :: ws => String a w :: ws
           end
  end.

(** [s.partition(c)]: the text before the first [c] and the text after
    it, [None] when [c] does not occur. *)
Fixpoint partition (c : ascii) (s : string) : option (string * string) :=
  match s with
  | EmptyString => None
  | String a s' =>
      if Ascii.eqb a c then Some ("", s')
      else match partition c s' with
           | Some (k, v) => Some (String a k, v)
           | None => None
           end
  end.

(** [s.lower()], on the ASCII letters *)
Definition lower_char (a : ascii) : ascii :=
  if (nat_of_ascii "A" <=? nat_of_ascii a)%nat && (nat_of_ascii a <=? nat_of_ascii "Z")%nat
  then ascii_of_nat (nat_of_ascii a + 32)
  else a.

Fixpoint lower (s : string) : string :=
  match s with
  | EmptyString => ""
  | String a s' => String (lower_char a) (lower s')
  end.

(** [s.lstrip(chars)], [s.rstrip(chars)] and [s.strip(chars)], the set
    [chars] given by its membership test *)
Fixpoint lstrip (chars : ascii → bool) (s : string) : string :=
  match s with
  | EmptyString => ""
  | String a s' => if chars a then lstrip chars s' else s
  end.

Fixpoint rstrip (chars : ascii → bool) (s : string) : string :=
  match s with
  | EmptyString => ""
  | String a s' =>
      match rstrip chars s' with
      | EmptyString => if chars a then "" else String a ""
      | rest => String a rest
      end
  end.

Definition strip (chars : ascii → bool) (s : string) : string :=
  lstrip chars (rstrip chars s).

End Str.

(** ** Module constants *)

Definition _API_VOICETEXT_AUTH : list (string * string) :=
  [("Authorization", "{{{voicetext}}}")].
Definition _API_VOICETEXT_ENDPOINT := "https://api.voicetext.jp/v1/tts".
Definition _API_VOICETEXT_TIMEOUT := 10.

Definition _AWESOMETTS := "AwesomeTTS/".

Definition _CODE_200 := "200 OK".
Definition _CODE_400 := "400 Bad Request".
Definition _CODE_403 := "403 Forbidden".
Definition _CODE_405 := "405 Method Not Allowed".
Definition _CODE_429 := "429 Too Many Requests".
Definition _CODE_502 := "502 Bad Gateway".
Definition _CODE_503 := "503 Service Unavailable".

Definition _HEADERS_JSON : list (string * string) :=
  [("Content-Type", "application/json")].

(** [json.dumps] of a string: the text between double quotes, with the
    double quote and the backslash escaped.  (The five messages below are
    printable ASCII; control and non-ASCII characters, which [dumps] would
    write as [\u] escapes, do not occur.) *)
Definition dquote : ascii := "034"%char.
Definition backslash : ascii := "092"%char.

Fixpoint json_escape (s : string) : string :=
  match s with
  | EmptyString => ""
  | String a s' =>
      if Ascii.eqb a dquote || Ascii.eqb a backslash
      then String backslash (String a (json_escape s'))
      else String a (json_escape s')
  end.

Definition json_string (s : string) : string :=
  String dquote (json_escape s +:+ String dquote "").

(** [_json(dict(message=msg), separators=(',', ':'))] *)
Definition _json_message (msg : string) : string :=
  "{" +:+ json_string "message" +:+ ":" +:+ json_string msg +:+ "}".

Definition _get_message (msg : string) : list string := [_json_message msg].

Definition _MSG_CAPACITY := _get_message "This service is over capacity".
Definition _MSG_DENIED := _get_message "You may not call this endpoint directly".
Definition _MSG_TOO_MANY := _get_message "You have made too many calls to the service".
Definition _MSG_UNACCEPTABLE := _get_message "Your request is unacceptable".
Definition _MSG_UPSTREAM := _get_message "Cannot communicate with upstream service".

(** ** Rate-limit state *)

(** An accounting entry [{'created': ..., 'calls': ...}]. *)
Record info := Info { created : Z; calls : Z }.

(** [LimitLevel(within, max_single, max_total, lookup)] *)
Record LimitLevel := MkLimitLevel {
  within : Z;
  max_single : Z;
  max_total : Z;
  lookup : gmap string info
}.

Definition _limit_levels : list LimitLevel :=
  [MkLimitLevel 60 25 5 ∅; MkLimitLevel 86400 500 100 ∅].

Definition set_lookup (level : LimitLevel) (m : gmap string info) : LimitLevel :=
  MkLimitLevel (within level) (max_single level) (max_total level) m.

(** The three loops of the rate-limiting block. *)

(** [for addr, info in lookup.items(): if info['created'] < expired: del lookup[addr]]
    ([items()] is a list, a snapshot of the dict taken before the loop). *)
Definition expire_step (expired : Z) (m : gmap string info) (item : string * info)
    : gmap string info :=
  if created (snd item) <? expired then delete (fst item) m else m.

Definition expire_lookup (expired : Z) (m : gmap string info) : gmap string info :=
  foldl (expire_step expired) m (map_to_list m).

Definition expire_level (now : Z) (level : LimitLevel) : LimitLevel :=
  set_lookup level (expire_lookup (now - within level) (lookup level)).

Definition remove_expired (now : Z) (levels : list LimitLevel) : list LimitLevel :=
  expire_level now <$> levels.

(** Why a level turns a caller away, with the numbers that are logged. *)
Inductive denial :=
  | OverCapacity (total : Z) (level_within : Z)
  | TooManyCalls (n : Z) (level_within : Z).

Definition check_level (remote_addr : string) (level : LimitLevel) : option denial :=
  match lookup level !! remote_addr with
  | None =>
      let total := Z.of_nat (size (lookup level)) in
      if total >=? max_total level then Some (OverCapacity total (within level))
      else None
  | Some info =>
      let n := calls info in
      if n >=? max_single level then Some (TooManyCalls n (within level))
      else None
  end.

(** The check loop returns from the handler at the first level that denies. *)
Fixpoint check_levels (remote_addr : string) (levels : list LimitLevel) : option denial :=
  match levels with
  | [] => None
  | level :: rest =>
      match check_level remote_addr level with
      | Some d => Some d
      | None => check_levels remote_addr rest
      end
  end.

(** The entry of the caller after the update loop visited the level:
    a new [{'created': now, 'calls': 1}], or the old one with one more call. *)
Definition updated_info (now : Z) (remote_addr : string) (level : LimitLevel) : info :=
  match lookup level !! remote_addr with
  | None => Info now 1
  | Some info => Info (created info) (calls info + 1)
  end.

Definition update_level (now : Z) (remote_addr : string) (level : LimitLevel)
    : LimitLevel :=
  set_lookup level (<[remote_addr := updated_info now remote_addr level]> (lookup level)).

Definition update_levels (now : Z) (remote_addr : string) (levels : list LimitLevel)
    : list LimitLevel :=
  update_level now remote_addr <$> levels.

(** The summary of a level, formatted right after its entry was updated. *)
Definition summary (now : Z) (remote_addr : string) (level : LimitLevel) : string :=
  let info := updated_info now remote_addr level in
  let lookup := lookup (update_level now remote_addr level) in
  pretty (within level) +:+ "-second window has " +:+
  pretty (calls info) +:+ "/" +:+ pretty (max_single level) +:+
  " individual calls for " +:+ remote_addr +:+ " and " +:+
  pretty (Z.of_nat (size lookup)) +:+ "/" +:+ pretty (max_total level) +:+
  " total unique callers".

(** ** Logging, the upstream service and the handler's world *)

Inductive log_arg := ArgInt (z : Z) | ArgStr (s : string).
Inductive log_level := ERROR | INFO | WARNING.
Record LogRecord := MkLog { levelname : log_level; msg : string; args : list log_arg }.

Definition exception := string.

Inductive Result (A : Type) :=
  | Raise (exc : exception)
  | Return (a : A).
Arguments Raise {A} exc.
Arguments Return {A} a.

(** [_Request(url, data, headers)] *)
Record Request := MkRequest {
  req_url : string;
  req_data : string;
  req_headers : list (string * string)
}.

(** What the handler observes of the object returned by [urlopen]. *)
Record UrlResponse := MkUrlResponse {
  getcode : Z;
  gettype : string;
  read : Result string
}.

(** [urlopen(request, timeout=...)]: raises or returns a response. *)
Definition Upstream := Request → Z → Result UrlResponse.

Inductive net_event :=
  | UrlOpen (request : Request) (timeout : Z)
  | Close.

Record World := MkWorld {
  limit_levels : list LimitLevel;
  records : list LogRecord;
  network : list net_event
}.

Definition initial_world : World := MkWorld _limit_levels [] [].

Definition set_levels (levels : list LimitLevel) (w : World) : World :=
  MkWorld levels (records w) (network w).
Definition log (l : log_level) (fmt : string) (a : list log_arg) (w : World) : World :=
  MkWorld (limit_levels w) (records w ++ [MkLog l fmt a]) (network w).
Definition emit (e : net_event) (w : World) : World :=
  MkWorld (limit_levels w) (records w) (network w ++ [e]).

Definition _warn := log WARNING.
Definition _info := log INFO.
Definition _error := log ERROR.

(** [start_response(status, headers)] followed by [return body]. *)
Record Response := MkResponse {
  status : string;
  headers : list (string * string);
  body : list string
}.

(** ** The handler *)

(** The sanity check on the query string, for a [data] that is not [None]. *)
Definition query_sane (data : string) : bool :=
  negb (String.eqb data "") &&
  (String.length data <? 1000)%nat &&
  (4 <? Str.count "&" data)%nat &&
  (Str.count "=" data <? 8)%nat &&
  Str.contains "format=" data &&
  negb (Str.contains "format=wav" data) &&
  Str.contains "pitch=" data && Str.contains "speaker=" data &&
  Str.contains "speed=" data &&
  Str.contains "text=" data && Str.contains "volume=" data.

Definition deny (d : denial) (remote_addr : string) (w : World) : Response * World :=
  match d with
  | OverCapacity total level_within =>
      (MkResponse _CODE_503 _HEADERS_JSON _MSG_CAPACITY,
       _warn ("Relay denied -- already have %d total callers " +:+
              "within the last %d seconds")
             [ArgInt total; ArgInt level_within] w)
  | TooManyCalls n level_within =>
      (MkResponse _CODE_429 _HEADERS_JSON _MSG_TOO_MANY,
       _warn ("Relay denied -- already had %d individual calls " +:+
              "from %s within the last %d seconds")
             [ArgInt n; ArgStr remote_addr; ArgInt level_within] w)
  end.

(** The [except] clause. *)
Definition relay_failed (exc : exception) (w : World) : Response * World :=
  (MkResponse _CODE_502 _HEADERS_JSON _MSG_UPSTREAM,
   _error "Relay failed -- %s" [ArgStr exc] w).

(** The [try] statement: [finally] closes the response when [urlopen]
    returned one (when it raised, [response] is unbound and the
    [NameError] of [response.close()] is swallowed). *)
Definition fetch (upstream : Upstream) (data : string) (w : World) : Response * World :=
  let request := MkRequest _API_VOICETEXT_ENDPOINT data _API_VOICETEXT_AUTH in
  let w := emit (UrlOpen request _API_VOICETEXT_TIMEOUT) w in
  match upstream request _API_VOICETEXT_TIMEOUT with
  | Raise exc => relay_failed exc w
  | Return response =>
      let '(r, w) :=
        if negb (getcode response =? 200)
        then relay_failed "non-200 status code from upstream service" w
        else
          let mime := gettype response in
          if negb (Str.startswith mime "audio/")
          then relay_failed "non-audio format from upstream service" w
          else
            match read response with
            | Raise exc => relay_failed exc w
            | Return payload =>
                (MkResponse _CODE_200 [("Content-Type", mime)] [payload], w)
            end
      in (r, emit Close w)
  end.

(** The block under [with _limit_lock]: [inl] is an early return. *)
Definition rate_limit (now : Z) (remote_addr : string) (w : World)
    : (Response * World) + World :=
  let levels := remove_expired now (limit_levels w) in
  let w := set_levels levels w in
  match check_levels remote_addr levels with
  | Some d => inl (deny d remote_addr w)
  | None =>
      let summaries := summary now remote_addr <$> levels in
      let levels := update_levels now remote_addr levels in
      inr (_info "Relay accepted -- %s" [ArgStr (Str.join "; " summaries)]
                 (set_levels levels w))
  end.

Definition voicetext (upstream : Upstream) (now : Z)
    (environ : gmap string string) (w : World) : Response * World :=
  let remote_addr := default "" (environ !! "REMOTE_ADDR") in
  if String.eqb remote_addr "" then
    (MkResponse _CODE_403 _HEADERS_JSON _MSG_DENIED,
     _warn "Relay denied -- no remote IP address" [] w)
  else if negb (Str.startswith (default "" (environ !! "HTTP_USER_AGENT")) _AWESOMETTS) then
    (MkResponse _CODE_403 _HEADERS_JSON _MSG_DENIED,
     _warn "Relay denied -- unauthorized user agent" [] w)
  else if negb (bool_decide (environ !! "REQUEST_METHOD" = Some "GET")) then
    (MkResponse _CODE_405 _HEADERS_JSON _MSG_UNACCEPTABLE,
     _warn "Relay denied -- unacceptable request method" [] w)
  else
    let unacceptable :=
      (MkResponse _CODE_400 _HEADERS_JSON _MSG_UNACCEPTABLE,
       _warn "Relay denied -- unacceptable query string" [] w) in
    match environ !! "QUERY_STRING" with
    | None => unacceptable
    | Some data =>
        if negb (query_sane data) then unacceptable
        else
          match rate_limit now remote_addr w with
          | inl early => early
          | inr w => fetch upstream data w
          end
    end.

(** ** Serving a sequence of requests *)

(** One request as the handler sees it: the clock at the time of the call,
    the WSGI environment, and what the upstream does for this call. *)
Record call := Call {
  call_now : Z;
  call_environ : gmap string string;
  call_upstream : Upstream
}.

Definition handle (c : call) (w : World) : Response * World :=
  voicetext (call_upstream c) (call_now c) (call_environ c) w.

Fixpoint serve (cs : list call) (w : World) : list Response * World :=
  match cs with
  | [] => ([], w)
  | c :: cs' =>
      let '(r, w1) := handle c w in
      let '(rs, w2) := serve cs' w1 in
      (r :: rs, w2)
  end.

(** ** Notions used in the statements *)

(** The environment passes the four validation steps and names [addr] as
    the caller. *)
Definition valid_for (addr : string) (environ : gmap string string) : bool :=
  bool_decide (environ !! "REMOTE_ADDR" = Some addr) &&
  negb (String.eqb addr "") &&
  Str.startswith (default "" (environ !! "HTTP_USER_AGENT")) _AWESOMETTS &&
  bool_decide (environ !! "REQUEST_METHOD" = Some "GET") &&
  from_option query_sane false (environ !! "QUERY_STRING").

(** The request was let through to the upstream: the handler answered with
    what [fetch] produced. *)
Definition forwarded (r : Response) : Prop :=
  status r = _CODE_200 ∨ status r = _CODE_502.

Definition passes (remote_addr : string) (level : LimitLevel) : bool :=
  match check_level remote_addr level with
  | None => true
  | Some _ => false
  end.

(** Every level but the one at index [i] lets the caller pass. *)
Definition others_pass (i : nat) (remote_addr : string) (levels : list LimitLevel) : bool :=
  forallb (passes remote_addr) (take i levels) &&
  forallb (passes remote_addr) (drop (S i) levels).

(** The same along a run: at every call, after the expired entries were
    removed, every level but the one at index [i] lets the caller pass. *)
Fixpoint others_admit (i : nat) (remote_addr : string) (cs : list call) (w : World) : bool :=
  match cs with
  | [] => true
  | c :: cs' =>
      others_pass i remote_addr (remove_expired (call_now c) (limit_levels w)) &&
      others_admit i remote_addr cs' (snd (handle c w))
  end.

(** The configuration of a level, without its accounting. *)
Definition policy (level : LimitLevel) : Z * Z * Z :=
  (within level, max_single level, max_total level).

(** The first three validation steps: a caller address, the user agent of
    the add-on, and the method GET. *)
Definition acceptable_caller (environ : gmap string string) : bool :=
  negb (String.eqb (default "" (environ !! "REMOTE_ADDR")) "") &&
  Str.startswith (default "" (environ !! "HTTP_USER_AGENT")) _AWESOMETTS &&
  bool_decide (environ !! "REQUEST_METHOD" = Some "GET").

(** The checks of the query string other than the two on [format=]. *)
Definition other_checks (data : string) : bool :=
  negb (String.eqb data "") &&
  (String.length data <? 1000)%nat &&
  (4 <? Str.count "&" data)%nat &&
  (Str.count "=" data <? 8)%nat &&
  Str.contains "pitch=" data && Str.contains "speaker=" data &&
  Str.contains "speed=" data &&
  Str.contains "text=" data && Str.contains "volume=" data.

(** A query string that lacks one of the five parameters or carries
    [format=wav]. *)
Definition query_defective (data : string) : bool :=
  negb (Str.contains "pitch=" data) || negb (Str.contains "speaker=" data) ||
  negb (Str.contains "speed=" data) || negb (Str.contains "text=" data) ||
  negb (Str.contains "volume=" data) || Str.contains "format=wav" data.

(** The reading of the specification's words "contains a [format=]
    parameter whose value is not [wav]": the query string is cut at every
    [&], each piece at its first [=], and some piece has the key [format]
    and a value other than [wav]. *)
Definition spec_format_parameter_not_wav (data : string) : bool :=
  existsb (λ piece,
             match Str.partition "=" piece with
             | Some (key, value) => String.eqb key "format" && negb (String.eqb value "wav")
             | None => false
             end)
          (Str.split "&" data).

Definition unacceptable (w : World) : Response * World :=
  (MkResponse _CODE_400 _HEADERS_JSON _MSG_UNACCEPTABLE,
   _warn "Relay denied -- unacceptable query string" [] w).

(** Every run of the handler is of one of three kinds: the request fails
    validation and the levels are as before; a level denies it, on levels
    that were swept; or it is admitted, the levels are swept and updated
    and the request goes upstream. *)
Inductive handled (now : Z) (environ : gmap string string) (w : World)
    (r : Response) (w' : World) : Prop :=
  | handled_invalid :
      status r = _CODE_403 ∨ status r = _CODE_405 ∨ status r = _CODE_400 →
      limit_levels w' = limit_levels w →
      network w' = network w →
      handled now environ w r w'
  | handled_denied addr d :
      valid_for addr environ = true →
      check_levels addr (remove_expired now (limit_levels w)) = Some d →
      (r, w') = deny d addr (set_levels (remove_expired now (limit_levels w)) w) →
      handled now environ w r w'
  | handled_admitted addr :
      valid_for addr environ = true →
      check_levels addr (remove_expired now (limit_levels w)) = None →
      forwarded r →
      limit_levels w' = update_levels now addr (remove_expired now (limit_levels w)) →
      handled now environ w r w'.

(** The ways in which the upstream call fails: [urlopen] raises (a timeout,
    a connection error), the status is not 200, the content type does not
    begin with [audio/], or reading the body raises. *)
Inductive upstream_failure : Result UrlResponse → Prop :=
  | failure_open exc : upstream_failure (Raise exc)
  | failure_status response :
      getcode response ≠ 200 → upstream_failure (Return response)
  | failure_type response :
      Str.startswith (gettype response) "audio/" = false →
      upstream_failure (Return response)
  | failure_read response exc :
      read response = Raise exc → upstream_failure (Return response).

Definition upstream_request (data : string) : Request :=
  MkRequest _API_VOICETEXT_ENDPOINT data _API_VOICETEXT_AUTH.

(** The text of the exception that the [except] clause receives: what
    [urlopen] or [read] raised, or the message of the handler's own
    [IOError]. *)
Definition failure_detail (outcome : Result UrlResponse) : exception :=
  match outcome with
  | Raise exc => exc
  | Return response =>
      if negb (getcode response =? 200)
      then "non-200 status code from upstream service"
      else if negb (Str.startswith (gettype response) "audio/")
           then "non-audio format from upstream service"
           else match read response with
                | Raise exc => exc
                | Return _ => ""
                end
  end.

(** The number of entries of a level is at most its total-caller cap. *)
Definition within_capacity (level : LimitLevel) : Prop :=
  Z.of_nat (size (lookup level)) ≤ max_total level.

(** The state of the level at index [i]: its window [wi] and per-caller cap
    [M], and the entry of the caller [addr]. *)
Definition level_has (addr : string) (i : nat) (wi M : Z)
    (w : World) (entry : option info) : Prop :=
  ∃ level, limit_levels w !! i = Some level ∧
    within level = wi ∧ max_single level = M ∧ lookup level !! addr = entry.

(** Every entry of the level counts at least one call and at most the
    per-caller cap, or one call where the cap is below one. *)
Definition counts_within_cap (level : LimitLevel) : Prop :=
  ∀ a i, lookup level !! a = Some i →
    1 ≤ calls i ∧ calls i ≤ Z.max 1 (max_single level).

(** The entry that an admitted call at time [now] leaves for its caller on
    a level, from the entry the caller had before the call. *)
Definition counted (now : Z) (level : LimitLevel) (before : option info) : info :=
  match before with
  | None => Info now 1
  | Some i =>
      if created i <? now - within level then Info now 1
      else Info (created i) (calls i + 1)
  end.

(** ** The responders for unresolved requests ([unresolved/__init__.py]) *)

(** The character classes of the patterns of [get_paths]. *)
Definition is_dash (a : ascii) : bool := Ascii.eqb a "-".
Definition is_period (a : ascii) : bool := Ascii.eqb a ".".

(** [[-.]] *)
Definition is_dash_or_period (a : ascii) : bool := is_dash a || is_period a.

Definition in_range (lo hi a : ascii) : bool :=
  (nat_of_ascii lo <=? nat_of_ascii a)%nat && (nat_of_ascii a <=? nat_of_ascii hi)%nat.

(** [[-./A-Za-z0-9]] *)
Definition is_path_character (a : ascii) : bool :=
  is_dash a || is_period a || Ascii.eqb a "/" ||
  in_range "A" "Z" a || in_range "a" "z" a || in_range "0" "9" a.

(** [pattern.sub('', s)] for a pattern that matches one character: the
    characters that match are dropped. *)
Fixpoint sub_each (matches : ascii → bool) (s : string) : string :=
  match s with
  | EmptyString => ""
  | String a s' => if matches a then sub_each matches s' else String a (sub_each matches s')
  end.

(** [pattern.sub(repl, s)] for a pattern [[...]{2,}] and a [repl] of one
    character: from left to right, every longest run of two or more
    characters of the class is replaced by [repl]; [inside] says that the
    characters at hand continue a run that was replaced already. *)
Fixpoint sub_runs_from (matches : ascii → bool) (repl : ascii) (inside : bool)
    (s : string) : string :=
  match s with
  | EmptyString => ""
  | String a s' =>
      if matches a then
        if inside then sub_runs_from matches repl true s'
        else
          match s' with
          | String b _ =>
              if matches b then String repl (sub_runs_from matches repl true s')
              else String a (sub_runs_from matches repl false s')
          | EmptyString => String a ""
          end
      else String a (sub_runs_from matches repl false s')
  end.

Definition sub_runs (matches : ascii → bool) (repl : ascii) (s : string) : string :=
  sub_runs_from matches repl false s.

(** [get_paths.re_excessive_any.sub('.', s)], with [re(r'[-.]{2,}')] *)
Definition re_excessive_any_sub (s : string) : string := sub_runs is_dash_or_period "." s.

(** [get_paths.re_excessive_dashes.sub('-', s)], with [re(r'-{2,}')] *)
Definition re_excessive_dashes_sub (s : string) : string := sub_runs is_dash "-" s.

(** [get_paths.re_excessive_periods.sub('.', s)], with [re(r'\.{2,}')] *)
Definition re_excessive_periods_sub (s : string) : string := sub_runs is_period "." s.

(** [get_paths.re_filter_characters.sub('', s)], with [re(r'[^-./A-Za-z0-9]')] *)
Definition re_filter_characters_sub (s : string) : string :=
  sub_each (λ a, negb (is_path_character a)) s.

(** [[0-9A-Fa-f]] *)
Definition is_hex_digit (a : ascii) : bool :=
  in_range "0" "9" a || in_range "A" "F" a || in_range "a" "f" a.

(** [get_paths.re_filter_encoding.sub('', s)], with [re(r'%[0-9A-Fa-f]{2}')]:
    from left to right, a percent sign followed by two hexadecimal digits
    is dropped with them. *)
Fixpoint filter_encoding (s : string) : string :=
  match s with
  | EmptyString => ""
  | String a s' =>
      match s' with
      | String b (String c s'') =>
          if Ascii.eqb a "%" && is_hex_digit b && is_hex_digit c
          then filter_encoding s''
          else String a (filter_encoding s')
      | _ => String a (filter_encoding s')
      end
  end.

Definition truthy (s : option string) : bool :=
  match s with
  | Some s => negb (String.eqb s "")
  | None => false
  end.

Section unresolved.

(** [get_paths.re_filter_encoding.sub('', s)], taken as a parameter: what
    follows holds for every substitution, or for every one that leaves
    normal paths alone, as [filter_encoding], the one of the source,
    does. *)
Variable re_filter_encoding_sub : string → string.

(** The files read when the module is loaded: [redirects.json], the page
    [error404.html], and [redirect.html], the template, with
    [other.template301 % {'path': new_path}] as a function of the path (a
    template that formats; one on which [%] raises is not covered). *)
Variable redirects : gmap string string.
Variable response404 : list string.
Variable template301 : string → string.

(** The new path that [get_paths] builds from a path. *)
Definition new_path_of (old_path : string) : string :=
  "/" +:+ Str.join "/"
    (List.filter (λ component, negb (String.eqb component ""))
       (map (Str.strip is_dash_or_period)
          (Str.split "/"
             (Str.lower
                (re_excessive_any_sub
                   (re_excessive_dashes_sub
                      (re_excessive_periods_sub
                         (re_filter_characters_sub
                            (re_filter_encoding_sub old_path))))))))).

Definition get_paths (environ : gmap string string) : option string * option string :=
  let old_path := environ !! "PATH_INFO" in
  match old_path with
  | Some path =>
      if negb (String.eqb path "") then
        let new_path := new_path_of path in
        if negb (String.eqb new_path path) then (old_path, Some new_path)
        else (old_path, None)
      else (old_path, None)
  | None => (old_path, None)
  end.

Definition api_headers : list (string * string) :=
  [("Content-Type", "application/json")].

(** [api.json]: one key, so [sort_keys] changes nothing. *)
Definition api_json (message : string) : list string := [_json_message message].

Definition api_response404 : list string := api_json "No such endpoint".

Definition api (environ : gmap string string) (w : World) : Response * World :=
  let '(path, new_path) := get_paths environ in
  if truthy new_path then
    let new_path := default "" new_path in
    (MkResponse "301 Moved Permanently" (api_headers ++ [("Location", new_path)])
                (api_json ("Try " +:+ new_path +:+ " instead")),
     log WARNING ("API redirect to " +:+ new_path) [] w)
  else
    (MkResponse "404 Not Found" api_headers api_response404,
     log ERROR "Nothing suitable; returning 404 error JSON" [] w).

Definition other_headers : list (string * string) :=
  [("Content-Type", "text/html; charset=utf-8")].

(** [other]: with no [PATH_INFO] in the environment, [old_path] is [None];
    [None in other.redirects] is false and [None.startswith] raises. *)
Definition other (environ : gmap string string) (w : World) : Result (Response * World) :=
  let '(old_path, new_path) := get_paths environ in
  let found : Result (option string) :=
    if negb (truthy new_path) then
      match old_path with
      | None => Raise "'NoneType' object has no attribute 'startswith'"
      | Some path =>
          match redirects !! path with
          | Some target => Return (Some target)
          | None =>
              if Str.startswith path "/services/" then Return (Some "/services")
              else Return new_path
          end
      end
    else Return new_path in
  match found with
  | Raise exc => Raise exc
  | Return new_path =>
      if truthy new_path then
        let new_path := default "" new_path in
        Return
          (MkResponse "301 Moved Permanently" (other_headers ++ [("Location", new_path)])
                      [template301 new_path],
           log WARNING ("Website redirect to " +:+ new_path) [] w)
      else
        Return
          (MkResponse "404 Not Found" other_headers response404,
           log ERROR "Nothing suitable; returning 404 error page" [] w)
  end.

End unresolved.

(** The paths that [get_paths] leaves alone. *)
Definition head_in (chars : ascii → bool) (s : string) : bool :=
  match s with
  | String a _ => chars a
  | EmptyString => false
  end.

Fixpoint last_in (chars : ascii → bool) (s : string) : bool :=
  match s with
  | EmptyString => false
  | String a s' =>
      match s' with
      | EmptyString => chars a
      | String _ _ => last_in chars s'
      end
  end.

Fixpoint all_chars (chars : ascii → bool) (s : string) : bool :=
  match s with
  | EmptyString => true
  | String a s' => chars a && all_chars chars s'
  end.

(** No two characters of the class next to each other. *)
Fixpoint no_adjacent (chars : ascii → bool) (s : string) : bool :=
  match s with
  | EmptyString => true
  | String a s' => negb (chars a && head_in chars s') && no_adjacent chars s'
  end.

(** [[-.a-z0-9]] *)
Definition is_component_character (a : ascii) : bool :=
  is_dash a || is_period a || in_range "a" "z" a || in_range "0" "9" a.

(** A component of a normal path: not empty, of lower-case letters, digits,
    dashes and periods, with no dash or period at either end and no two of
    them in a row. *)
Definition good_component (c : string) : bool :=
  negb (String.eqb c "") &&
  all_chars is_component_character c &&
  negb (head_in is_dash_or_period c) &&
  negb (last_in is_dash_or_period c) &&
  no_adjacent is_dash_or_period c.

(** A normal path: a slash followed by good components with slashes
    between them. *)
Definition normal_path (p : string) : Prop :=
  ∃ components,
    forallb good_component components = true ∧
    p = "/" +:+ Str.join "/" components.

(** The request passes the four validation steps, so that it reaches the
    rate limiter under the address it names. *)
Definition passes_validation (environ : gmap string string) : bool :=
  valid_for (default "" (environ !! "REMOTE_ADDR")) environ.

(** A call of the caller [addr] that passes validation, or a call that
    names another address (or none). *)
Definition own_or_foreign (addr : string) (c : call) : bool :=
  valid_for addr (call_environ c) ||
  negb (String.eqb (default "" (call_environ c !! "REMOTE_ADDR")) addr).

(** The call does not sweep an entry created at [t1] from a level with the
    window [wi]: it does not reach the sweep, or comes early enough. *)
Definition keeps_alive (wi t1 : Z) (c : call) : bool :=
  negb (passes_validation (call_environ c)) || (call_now c - wi <=? t1).

(** The attempts of the caller in a run, and the answers to them. *)
Definition attempts (addr : string) (cs : list call) : list call :=
  List.filter (λ c, valid_for addr (call_environ c)) cs.

Definition answers_to (addr : string) (cs : list call) (rs : list Response)
    : list Response :=
  snd <$> List.filter (λ p, valid_for addr (call_environ (fst p))) (combine cs rs).

(** Along a run, at every attempt of the caller, after the expired entries
    were removed, every level but the one at index [i] lets the caller
    pass. *)
Fixpoint others_admit_caller (i : nat) (addr : string) (cs : list call) (w : World)
    : bool :=
  match cs with
  | [] => true
  | c :: cs' =>
      (negb (valid_for addr (call_environ c)) ||
       others_pass i addr (remove_expired (call_now c) (limit_levels w))) &&
      others_admit_caller i addr cs' (snd (handle c w))
  end.

(** ** Sample requests, upstream behaviours and runs *)

Definition sample_query := "format=mp3&pitch=100&speaker=haruka&speed=100&text=hello&volume=100".

Definition get_request (addr data : string) : gmap string string :=
  {[ "REMOTE_ADDR" := addr; "HTTP_USER_AGENT" := "AwesomeTTS/1.2";
     "REQUEST_METHOD" := "GET"; "QUERY_STRING" := data ]}.

Definition post_request (addr data : string) : gmap string string :=
  <["REQUEST_METHOD" := "POST"]> (get_request addr data).

Definition wav_upstream : Upstream :=
  λ _ _, Return (MkUrlResponse 200 "audio/wav" (Return "RIFF....WAVEfmt ")).
Definition status_500_upstream : Upstream :=
  λ _ _, Return (MkUrlResponse 500 "text/html" (Return "Internal Server Error")).
Definition timeout_upstream : Upstream := λ _ _, Raise "timed out".
Definition json_upstream : Upstream :=
  λ _ _, Return (MkUrlResponse 200 "application/json" (Return "{}")).

(** [n] calls in a row by [addr] at time [now]. *)
Definition calls_at (now : Z) (addr : string) (n : nat) : list call :=
  replicate n (Call now (get_request addr sample_query) wav_upstream).

(** The caller of the examples and the world after its 25 calls at time 0. *)
Definition caller := "203.0.113.7".
Definition world_after_25 : World := snd (serve (calls_at 0 caller 25) initial_world).

(** Callers with distinct addresses. *)
Definition host (n : nat) : string := "198.51.100." +:+ pretty (Z.of_nat n).

Definition calls_from (now : Z) (addrs : list string) : list call :=
  (λ addr, Call now (get_request addr sample_query) wav_upstream) <$> addrs.

(** The specification's example: a window of 60 seconds and a cap of one
    call per caller. *)
Definition one_call_a_minute : World := MkWorld [MkLimitLevel 60 1 5 ∅] [] [].

(** A day of traffic on the configured levels: the caller at t = 0; 99
    other callers, from t = 100 on, five every 61 seconds; the caller 25
    times at t = 86390; one more caller at t = 86401. *)
Definition batch (b : nat) : list call :=
  calls_from (100 + 61 * Z.of_nat b) (host <$> seq (5 * b) 5).

Definition a_day : list call :=
  calls_at 0 caller 1 ++
  concat (batch <$> seq 0 19) ++ calls_from 1259 (host <$> seq 95 4) ++
  calls_at 86390 caller 25 ++
  calls_from 86401 [host 99].

(** Five other callers at t = 0 on the configured levels. *)
Definition five_callers : World :=
  snd (serve (calls_from 0 (host <$> seq 0 5)) initial_world).

(** The level at index [i]. *)
Definition level_at (i : nat) (levels : list LimitLevel) : LimitLevel :=
  default (MkLimitLevel 0 0 0 ∅) (levels !! i).

(** An upstream that answers 200 with an audio type and fails while the
    body is read. *)
Definition unread_upstream : Upstream :=
  λ _ _, Return (MkUrlResponse 200 "audio/wav" (Raise "timed out")).

(** Twenty minutes of the caller on the configured levels: 25 calls every
    61 seconds, from t = 0 to t = 1159, 500 calls in all. *)
Definition twenty_minutes : list call :=
  concat ((λ b, calls_at (61 * Z.of_nat b) caller 25) <$> seq 0 20).

(** The calls of the caller between its first and its 26th, with the calls
    of two other callers and a request without address in between. *)
Definition mixed_minute : list call :=
  calls_at 5 caller 10 ++ calls_from 10 [host 1; host 2] ++
  [Call 2000 (delete "REMOTE_ADDR" (get_request caller sample_query)) wav_upstream] ++
  calls_at 20 caller 14 ++ calls_from 25 [host 1].

(** * Properties *)

(** ** Removing expired entries *)

Section expiry.
Variable expired : Z.
Implicit Types (m : gmap string info) (l : list (string * info)).

Lemma foldl_expire_None l m a :
  m !! a = None → foldl (expire_step expired) m l !! a = None.
Proof.
  revert m. induction l as [|[k v] l IH]; intros m Hm; simpl; [done|].
  apply IH. unfold expire_step; simpl.
  destruct (created v <? expired); [|done].
  destruct (decide (k = a)) as [->|Hne].
  - apply lookup_delete_eq.
  - by rewrite lookup_delete_ne.
Qed.

Lemma foldl_expire_keep l m a :
  (∀ i, (a, i) ∈ l → ¬ created i < expired) →
  foldl (expire_step expired) m l !! a = m !! a.
Proof.
  revert m. induction l as [|[k v] l IH]; intros m Hl; simpl; [done|].
  rewrite IH.
  - unfold expire_step; simpl.
    destruct (Z.ltb_spec (created v) expired) as [Hlt|Hge]; [|done].
    destruct (decide (k = a)) as [->|Hne].
    + exfalso. apply (Hl v); [left|done].
    + by rewrite lookup_delete_ne.
  - intros i Hi. apply Hl. by right.
Qed.

Lemma foldl_expire_drop l m a i :
  (a, i) ∈ l → created i < expired →
  foldl (expire_step expired) m l !! a = None.
Proof.
  revert m. induction l as [|[k v] l IH]; intros m Hin Hlt; simpl.
  - by apply elem_of_nil in Hin.
  - apply elem_of_cons in Hin as [Heq|Hin].
    + inversion Heq; subst k v. apply foldl_expire_None.
      unfold expire_step; simpl.
      destruct (Z.ltb_spec (created i) expired); [|lia].
      apply lookup_delete_eq.
    + by apply IH.
Qed.

(** An entry survives the sweep exactly when it is in the dict and its
    creation time is not before [expired]; it survives unchanged. *)
Lemma expire_lookup_Some m a i :
  expire_lookup expired m !! a = Some i ↔ m !! a = Some i ∧ ¬ created i < expired.
Proof.
  unfold expire_lookup. split.
  - intros Hs. destruct (m !! a) as [j|] eqn:Hm.
    + destruct (decide (created j < expired)) as [Hlt|Hge].
      * rewrite (foldl_expire_drop _ _ a j) in Hs; [done| |done].
        by apply elem_of_map_to_list.
      * rewrite foldl_expire_keep in Hs.
        { rewrite Hm in Hs. by simplify_eq. }
        intros j' Hj'. apply elem_of_map_to_list in Hj'. by simplify_eq.
    + by rewrite foldl_expire_None in Hs.
  - intros [Hm Hge]. rewrite foldl_expire_keep; [done|].
    intros j' Hj'. apply elem_of_map_to_list in Hj'. by simplify_eq.
Qed.

Lemma expire_lookup_None m a :
  expire_lookup expired m !! a = None ↔
  m !! a = None ∨ ∃ i, m !! a = Some i ∧ created i < expired.
Proof.
  split.
  - intros Hn. destruct (m !! a) as [j|] eqn:Hm; [|by left].
    right. exists j. split; [done|].
    destruct (decide (created j < expired)) as [|Hge]; [done|].
    assert (expire_lookup expired m !! a = Some j) as Hs.
    { by apply expire_lookup_Some. }
    congruence.
  - intros [Hm|(i & Hm & Hlt)].
    + by apply foldl_expire_None.
    + destruct (expire_lookup expired m !! a) as [j|] eqn:Hs; [|done].
      apply expire_lookup_Some in Hs as [Hm' Hge]. by simplify_eq.
Qed.

Lemma expire_lookup_subseteq m : expire_lookup expired m ⊆ m.
Proof.
  apply map_subseteq_spec. intros a i Hs.
  by apply expire_lookup_Some in Hs as [? _].
Qed.

Lemma size_expire_lookup m : (size (expire_lookup expired m) ≤ size m)%nat.
Proof. apply map_subseteq_size, expire_lookup_subseteq. Qed.

(** Nothing is left to remove after a sweep. *)
Lemma expire_lookup_idemp m :
  expire_lookup expired (expire_lookup expired m) = expire_lookup expired m.
Proof.
  apply map_eq. intros a. apply option_eq. intros i.
  rewrite !expire_lookup_Some. naive_solver.
Qed.

End expiry.

(** ** The levels through the three loops *)

Lemma policy_expire_level now level : policy (expire_level now level) = policy level.
Proof. done. Qed.

Lemma policy_update_level now a level : policy (update_level now a level) = policy level.
Proof. done. Qed.

Lemma lookup_expire_level now level :
  lookup (expire_level now level) = expire_lookup (now - within level) (lookup level).
Proof. done. Qed.

Lemma remove_expired_lookup now levels k :
  remove_expired now levels !! k = expire_level now <$> levels !! k.
Proof. apply list_lookup_fmap. Qed.

Lemma update_levels_lookup now a levels k :
  update_levels now a levels !! k = update_level now a <$> levels !! k.
Proof. apply list_lookup_fmap. Qed.

Lemma remove_expired_idemp now levels :
  remove_expired now (remove_expired now levels) = remove_expired now levels.
Proof.
  unfold remove_expired. rewrite <- list_fmap_compose.
  apply list_fmap_ext. intros _ [wi ms mt m] _. unfold expire_level, set_lookup; simpl.
  by rewrite expire_lookup_idemp.
Qed.

(** The update loop adds the caller where it has no entry and touches no
    other entry. *)
Lemma update_level_caller now a level :
  lookup (update_level now a level) !! a = Some (updated_info now a level).
Proof. apply lookup_insert_eq. Qed.

Lemma update_level_other now a b level :
  a ≠ b → lookup (update_level now a level) !! b = lookup level !! b.
Proof. intros Hne. by apply lookup_insert_ne. Qed.

Lemma size_update_level now a level :
  size (lookup (update_level now a level)) =
    match lookup level !! a with
    | Some _ => size (lookup level)
    | None => S (size (lookup level))
    end.
Proof.
  unfold update_level; simpl. destruct (lookup level !! a) eqn:Ha.
  - by apply map_size_insert_Some.
  - by apply map_size_insert_None.
Qed.

(** ** The check loop *)

Lemma passes_None a level : passes a level = true ↔ check_level a level = None.
Proof. unfold passes. by destruct (check_level a level). Qed.

Lemma check_levels_app a l1 l2 :
  check_levels a (l1 ++ l2) =
    match check_levels a l1 with
    | Some d => Some d
    | None => check_levels a l2
    end.
Proof.
  induction l1 as [|level l1 IH]; simpl; [done|].
  by destruct (check_level a level).
Qed.

Lemma check_levels_pass a l :
  forallb (passes a) l = true → check_levels a l = None.
Proof.
  induction l as [|level l IH]; simpl; [done|].
  intros [Hp Hl]%andb_true_iff. apply passes_None in Hp. rewrite Hp. auto.
Qed.

Lemma check_levels_None a l :
  check_levels a l = None ↔ ∀ level, level ∈ l → check_level a level = None.
Proof.
  induction l as [|level l IH]; simpl.
  - split; [|done]. intros _ level Hin. by apply elem_of_nil in Hin.
  - destruct (check_level a level) eqn:Hc.
    + split; [done|]. intros Hall. rewrite <- Hc. apply Hall. by left.
    + rewrite IH. split.
      * intros Hall level' [->|Hin]%elem_of_cons; auto.
      * intros Hall level' Hin. apply Hall. by right.
Qed.

(** With every other level passing, the loop's verdict is the verdict of
    the level at index [i]. *)
Lemma check_levels_only a levels i level :
  levels !! i = Some level →
  others_pass i a levels = true →
  check_levels a levels = check_level a level.
Proof.
  intros Hi [Hbefore Hafter]%andb_true_iff.
  rewrite <- (take_drop_middle levels i level Hi) at 1.
  rewrite check_levels_app, (check_levels_pass _ _ Hbefore); simpl.
  rewrite (check_levels_pass _ _ Hafter). by destruct (check_level a level).
Qed.

(** With the levels before index [i] passing, a denial by the level at
    index [i] is the loop's verdict. *)
Lemma check_levels_first a levels i level d :
  levels !! i = Some level →
  forallb (passes a) (take i levels) = true →
  check_level a level = Some d →
  check_levels a levels = Some d.
Proof.
  intros Hi Hbefore Hd.
  rewrite <- (take_drop_middle levels i level Hi).
  rewrite check_levels_app, (check_levels_pass _ _ Hbefore); simpl.
  by rewrite Hd.
Qed.

(** A level that denies makes the loop deny, with its own verdict or with
    that of an earlier level. *)
Lemma check_levels_some a levels level d :
  level ∈ levels → check_level a level = Some d →
  ∃ d', check_levels a levels = Some d'.
Proof.
  intros Hin Hd. destruct (check_levels a levels) as [d'|] eqn:Hc; [by eexists|].
  rewrite check_levels_None in Hc. specialize (Hc level Hin). congruence.
Qed.

(** ** The handler on a request that passes validation *)

Lemma limit_levels_fetch upstream data w :
  limit_levels (snd (fetch upstream data w)) = limit_levels w.
Proof.
  unfold fetch, relay_failed.
  destruct (upstream _ _) as [exc|response]; simpl; [done|].
  destruct (negb (getcode response =? 200)); simpl; [done|].
  destruct (negb (Str.startswith _ _)); simpl; [done|].
  by destruct (read response).
Qed.

Lemma forwarded_fetch upstream data w : forwarded (fst (fetch upstream data w)).
Proof.
  unfold fetch, relay_failed, forwarded.
  destruct (upstream _ _) as [exc|response]; simpl; [by right|].
  destruct (negb (getcode response =? 200)); simpl; [by right|].
  destruct (negb (Str.startswith _ _)); simpl; [by right|].
  destruct (read response); simpl; [by right|by left].
Qed.

Lemma valid_for_spec addr environ :
  valid_for addr environ = true ↔
  environ !! "REMOTE_ADDR" = Some addr ∧ addr ≠ "" ∧
  Str.startswith (default "" (environ !! "HTTP_USER_AGENT")) _AWESOMETTS = true ∧
  environ !! "REQUEST_METHOD" = Some "GET" ∧
  ∃ data, environ !! "QUERY_STRING" = Some data ∧ query_sane data = true.
Proof.
  unfold valid_for. rewrite !andb_true_iff, !bool_decide_eq_true, negb_true_iff.
  rewrite String.eqb_neq.
  destruct (environ !! "QUERY_STRING") as [data|]; simpl; naive_solver.
Qed.

Lemma voicetext_valid upstream now environ addr w :
  valid_for addr environ = true →
  voicetext upstream now environ w =
    match rate_limit now addr w with
    | inl early => early
    | inr w' => fetch upstream (default "" (environ !! "QUERY_STRING")) w'
    end.
Proof.
  intros (Ha & Hne & Hua & Hm & data & Hq & Hsane)%valid_for_spec.
  unfold voicetext. rewrite Ha, Hm, Hq.
  rewrite bool_decide_eq_true_2 by done. cbn [default from_option id].
  apply String.eqb_neq in Hne. rewrite Hne, Hua. cbn [negb].
  by rewrite Hsane.
Qed.

(** A denial: the answer of [deny], on levels that were swept and nothing
    else. *)
Lemma voicetext_denied upstream now environ addr w d :
  valid_for addr environ = true →
  check_levels addr (remove_expired now (limit_levels w)) = Some d →
  voicetext upstream now environ w =
    deny d addr (set_levels (remove_expired now (limit_levels w)) w).
Proof.
  intros Hv Hd. rewrite (voicetext_valid _ _ _ addr) by done.
  unfold rate_limit; simpl. by rewrite Hd.
Qed.

(** An admission: the levels are swept and updated, and the request goes
    upstream. *)
Lemma voicetext_admitted upstream now environ addr w :
  valid_for addr environ = true →
  check_levels addr (remove_expired now (limit_levels w)) = None →
  forwarded (fst (voicetext upstream now environ w)) ∧
  limit_levels (snd (voicetext upstream now environ w)) =
    update_levels now addr (remove_expired now (limit_levels w)).
Proof.
  intros Hv Hd. rewrite (voicetext_valid _ _ _ addr) by done.
  unfold rate_limit; simpl. rewrite Hd. split.
  - apply forwarded_fetch.
  - by rewrite limit_levels_fetch.
Qed.

Lemma limit_levels_deny d a w : limit_levels (snd (deny d a w)) = limit_levels w.
Proof. by destruct d. Qed.

Lemma voicetext_handled upstream now environ w :
  handled now environ w (fst (voicetext upstream now environ w))
                        (snd (voicetext upstream now environ w)).
Proof.
  destruct (valid_for (default "" (environ !! "REMOTE_ADDR")) environ) eqn:Hv.
  - set (addr := default "" (environ !! "REMOTE_ADDR")) in *.
    destruct (check_levels addr (remove_expired now (limit_levels w))) as [d|] eqn:Hc.
    + apply (handled_denied _ _ _ _ _ addr d); [done..|].
      rewrite (voicetext_denied _ _ _ addr w d) by done. by destruct (deny _ _ _).
    + destruct (voicetext_admitted upstream now environ addr w) as [Hf Hl]; [done..|].
      by apply (handled_admitted _ _ _ _ _ addr).
  - unfold valid_for in Hv. unfold voicetext.
    destruct (String.eqb (default "" (environ !! "REMOTE_ADDR")) "") eqn:Ha.
    { apply handled_invalid; simpl; auto. }
    destruct (Str.startswith _ _) eqn:Hua; simpl.
    2:{ apply handled_invalid; simpl; auto. }
    destruct (bool_decide (environ !! "REQUEST_METHOD" = Some "GET")) eqn:Hm; simpl.
    2:{ apply handled_invalid; simpl; auto. }
    destruct (environ !! "QUERY_STRING") as [data|] eqn:Hq; simpl in *.
    2:{ apply handled_invalid; simpl; auto. }
    destruct (query_sane data) eqn:Hs; simpl.
    2:{ apply handled_invalid; simpl; auto. }
    exfalso. rewrite !andb_true_r in Hv. apply bool_decide_eq_false in Hv.
    destruct (environ !! "REMOTE_ADDR") as [a|]; [by apply Hv|done].
Qed.

(** ** The upstream call *)

Lemma fetch_failure upstream data w :
  let outcome := upstream (upstream_request data) _API_VOICETEXT_TIMEOUT in
  upstream_failure outcome →
  ∃ closing,
    fetch upstream data w =
      (MkResponse _CODE_502 _HEADERS_JSON _MSG_UPSTREAM,
       MkWorld (limit_levels w)
               (records w ++ [MkLog ERROR "Relay failed -- %s"
                                    [ArgStr (failure_detail outcome)]])
               (network w ++ UrlOpen (upstream_request data) _API_VOICETEXT_TIMEOUT :: closing))
    ∧ (closing = [] ∨ closing = [Close]).
Proof.
  unfold fetch, upstream_request. cbv zeta. intros Hf.
  destruct (upstream _ _) as [exc|response].
  { exists []. split; [done|by left]. }
  exists [Close]. split; [|by right]. unfold failure_detail.
  assert (∀ exc w0,
    (let '(r, w1) := relay_failed exc w0 in (r, emit Close w1)) =
    (MkResponse _CODE_502 _HEADERS_JSON _MSG_UPSTREAM,
     MkWorld (limit_levels w0)
             (records w0 ++ [MkLog ERROR "Relay failed -- %s" [ArgStr exc]])
             (network w0 ++ [Close]))) as Hfail by done.
  assert (∀ l (e : net_event), (l ++ [e]) ++ [Close] = l ++ [e; Close]) as Happ.
  { intros l e. by rewrite <- app_assoc. }
  inversion Hf as [|? Hcode|? Hty|? exc Hrd]; subst.
  - apply Z.eqb_neq in Hcode. rewrite Hcode. simpl negb. cbv iota.
    rewrite Hfail. simpl. by rewrite Happ.
  - destruct (negb (getcode response =? 200));
      [rewrite Hfail; simpl; by rewrite Happ|].
    rewrite Hty. simpl negb. cbv iota. rewrite Hfail. simpl. by rewrite Happ.
  - destruct (negb (getcode response =? 200));
      [rewrite Hfail; simpl; by rewrite Happ|].
    destruct (negb (Str.startswith (gettype response) "audio/"));
      [rewrite Hfail; simpl; by rewrite Happ|].
    rewrite Hrd, Hfail. simpl. by rewrite Happ.
Qed.

Lemma fetch_success upstream data w response payload :
  upstream (upstream_request data) _API_VOICETEXT_TIMEOUT = Return response →
  getcode response = 200 →
  Str.startswith (gettype response) "audio/" = true →
  read response = Return payload →
  fetch upstream data w =
    (MkResponse _CODE_200 [("Content-Type", gettype response)] [payload],
     emit Close (emit (UrlOpen (upstream_request data) _API_VOICETEXT_TIMEOUT) w)).
Proof.
  unfold fetch, upstream_request. cbv zeta. intros -> Hcode Hty Hrd.
  apply Z.eqb_eq in Hcode. rewrite Hcode, Hty, Hrd. done.
Qed.

(** C5: for every admitted request (it passes validation and no level
    denies it), when the upstream call fails in any way (urlopen raises,
    the status is not 200, the content type does not begin with audio/, or
    reading the body raises) the answer is 502 with the JSON headers and the
    one upstream-unavailable message, whatever the failure was; the detail
    of the failure is the argument of the error record that is logged and
    appears nowhere in the answer; and urlopen was called exactly once, with
    the query string as data. *)
Theorem upstream_failure_answer upstream now environ addr data w :
  valid_for addr environ = true →
  environ !! "QUERY_STRING" = Some data →
  check_levels addr (remove_expired now (limit_levels w)) = None →
  let outcome := upstream (upstream_request data) _API_VOICETEXT_TIMEOUT in
  upstream_failure outcome →
  let '(r, w') := voicetext upstream now environ w in
  r = MkResponse _CODE_502 _HEADERS_JSON _MSG_UPSTREAM ∧
  body r = ["{" +:+ json_string "message" +:+ ":" +:+
            json_string "Cannot communicate with upstream service" +:+ "}"] ∧
  (∃ accepted,
     records w' = records w ++
       [accepted; MkLog ERROR "Relay failed -- %s" [ArgStr (failure_detail outcome)]] ∧
     levelname accepted = INFO) ∧
  (∃ closing,
     network w' = network w ++
       UrlOpen (upstream_request data) _API_VOICETEXT_TIMEOUT :: closing ∧
     (closing = [] ∨ closing = [Close])).
Proof.
  intros Hv Hq Hc outcome Hf. rewrite (voicetext_valid _ _ _ addr) by done.
  unfold rate_limit; cbv zeta. rewrite Hc, Hq. cbn [default from_option id].
  match goal with |- context [fetch upstream data ?w0] =>
    destruct (fetch_failure upstream data w0 Hf) as (closing & -> & Hcl)
  end.
  split; [done|]. split; [done|]. split.
  - eexists. simpl. rewrite <- app_assoc. split; [reflexivity|done].
  - exists closing. by split.
Qed.

Lemma upstream_failure_answer_witness :
  fst (voicetext status_500_upstream 0 (get_request "203.0.113.7" sample_query)
                 initial_world)
  = MkResponse _CODE_502 _HEADERS_JSON _MSG_UPSTREAM.
Proof.
  pose proof (upstream_failure_answer status_500_upstream 0
                (get_request "203.0.113.7" sample_query) "203.0.113.7"
                sample_query initial_world) as H.
  destruct (voicetext _ _ _ _) as [r w'].
  apply H.
  - vm_compute; reflexivity.
  - vm_compute; reflexivity.
  - vm_compute; reflexivity.
  - apply failure_status. vm_compute. discriminate.
Defined.

(** The three stub upstreams of the specification: status 500, a timeout,
    and a JSON content type. *)
Example upstream_stubs_502 :
  Forall (λ upstream,
            fst (voicetext upstream 0 (get_request "203.0.113.7" sample_query)
                           initial_world)
            = MkResponse _CODE_502 _HEADERS_JSON _MSG_UPSTREAM)
         [status_500_upstream; timeout_upstream; json_upstream].
Proof. repeat constructor. Qed.

(** C6 (as amended): for every admitted request (it passes validation and
    no level denies it), when urlopen returns a response with status
    exactly 200 and a content type that begins with audio/, and the body is
    read without error, the answer is 200 with the single header
    Content-Type set to the upstream's content type and with the upstream's
    body as the only chunk, unchanged; when reading the body raises, the
    answer is the 502 with the upstream-unavailable message. *)
Theorem upstream_success_answer upstream now environ addr data w response :
  valid_for addr environ = true →
  environ !! "QUERY_STRING" = Some data →
  check_levels addr (remove_expired now (limit_levels w)) = None →
  upstream (upstream_request data) _API_VOICETEXT_TIMEOUT = Return response →
  getcode response = 200 →
  Str.startswith (gettype response) "audio/" = true →
  fst (voicetext upstream now environ w) =
    match read response with
    | Return payload =>
        MkResponse _CODE_200 [("Content-Type", gettype response)] [payload]
    | Raise _ => MkResponse _CODE_502 _HEADERS_JSON _MSG_UPSTREAM
    end.
Proof.
  intros Hv Hq Hc Hu Hcode Hty. rewrite (voicetext_valid _ _ _ addr) by done.
  unfold rate_limit; cbv zeta. rewrite Hc, Hq. cbn [default from_option id].
  destruct (read response) as [exc|payload] eqn:Hrd.
  - match goal with |- context [fetch upstream data ?w0] =>
      destruct (fetch_failure upstream data w0) as (closing & -> & _)
    end; [|done].
    cbv zeta. rewrite Hu. by apply (failure_read response exc).
  - by erewrite fetch_success.
Qed.

Lemma upstream_success_answer_witness :
  fst (voicetext wav_upstream 0 (get_request "203.0.113.7" sample_query) initial_world)
  = MkResponse _CODE_200 [("Content-Type", "audio/wav")] ["RIFF....WAVEfmt "].
Proof.
  apply (upstream_success_answer wav_upstream 0 _ "203.0.113.7" sample_query
           initial_world (MkUrlResponse 200 "audio/wav" (Return "RIFF....WAVEfmt ")));
    vm_compute; reflexivity.
Defined.

(** C6, as stated, fails: the upstream returns status 200 and the content
    type audio/wav, reading the body raises, and the answer is 502. *)
Lemma upstream_body_unread :
  unread_upstream (upstream_request sample_query) _API_VOICETEXT_TIMEOUT
    = Return (MkUrlResponse 200 "audio/wav" (Raise "timed out")) ∧
  Str.startswith "audio/wav" "audio/" = true ∧
  check_levels caller (remove_expired 0 (limit_levels initial_world)) = None ∧
  fst (voicetext unread_upstream 0 (get_request caller sample_query) initial_world)
  = MkResponse _CODE_502 _HEADERS_JSON _MSG_UPSTREAM.
Proof. vm_compute. repeat split. Qed.

(** ** Validation *)

Lemma query_sane_split data :
  query_sane data =
    other_checks data && Str.contains "format=" data &&
    negb (Str.contains "format=wav" data).
Proof.
  unfold query_sane, other_checks.
  destruct (negb (String.eqb data "") && (String.length data <? 1000)%nat &&
            (4 <? Str.count "&" data)%nat && (Str.count "=" data <? 8)%nat),
    (Str.contains "format=" data), (Str.contains "format=wav" data);
    simpl; rewrite ?andb_true_r, ?andb_false_r; reflexivity.
Qed.

Lemma query_defective_not_sane data :
  query_defective data = true → query_sane data = false.
Proof.
  unfold query_sane, query_defective.
  destruct (Str.contains "format=wav" data), (Str.contains "pitch=" data),
    (Str.contains "speaker=" data), (Str.contains "speed=" data),
    (Str.contains "text=" data), (Str.contains "volume=" data);
    simpl; rewrite ?andb_false_r; try done.
Qed.

Lemma voicetext_query upstream now environ w :
  acceptable_caller environ = true →
  voicetext upstream now environ w =
    match environ !! "QUERY_STRING" with
    | None => unacceptable w
    | Some data =>
        if query_sane data then
          match rate_limit now (default "" (environ !! "REMOTE_ADDR")) w with
          | inl early => early
          | inr w' => fetch upstream data w'
          end
        else unacceptable w
    end.
Proof.
  unfold acceptable_caller, voicetext, unacceptable.
  intros [[Ha Hua]%andb_true_iff Hm]%andb_true_iff.
  apply negb_true_iff in Ha. rewrite Ha, Hua, Hm. cbn [negb].
  destruct (environ !! "QUERY_STRING") as [data|]; [|done].
  by destruct (query_sane data).
Qed.

Lemma valid_for_caller environ data :
  acceptable_caller environ = true →
  environ !! "QUERY_STRING" = Some data →
  query_sane data = true →
  valid_for (default "" (environ !! "REMOTE_ADDR")) environ = true.
Proof.
  unfold acceptable_caller.
  intros [[Ha Hua]%andb_true_iff Hm]%andb_true_iff Hq Hs.
  apply valid_for_spec. apply negb_true_iff, String.eqb_neq in Ha.
  apply bool_decide_eq_true in Hm.
  destruct (environ !! "REMOTE_ADDR") as [a|] eqn:Hra; [|done].
  simpl in *. eauto 10.
Qed.

(** The answer to a request that passes validation is never a 400. *)
Lemma valid_not_400 upstream now environ addr w :
  valid_for addr environ = true →
  status (fst (voicetext upstream now environ w)) ≠ _CODE_400.
Proof.
  intros Hv. rewrite (voicetext_valid _ _ _ addr) by done.
  unfold rate_limit; cbv zeta.
  destruct (check_levels _ _) as [[]|]; simpl; [done..|].
  match goal with |- context [fetch ?u ?d ?w0] =>
    destruct (forwarded_fetch u d w0) as [-> | ->]
  end; done.
Qed.

(** C7 (as amended): for every request that passes the caller-address,
    user-agent and method checks and whose query string satisfies the other
    structural checks, the query string is accepted by validation if and
    only if it contains the substring format= and does not contain the
    substring format=wav; when it is not accepted the answer is 400 with the
    unacceptable-request message and nothing else happens, and when it is
    accepted the answer is not 400. *)
Theorem format_check_is_substring upstream now environ data w :
  acceptable_caller environ = true →
  environ !! "QUERY_STRING" = Some data →
  other_checks data = true →
  let accepted :=
    Str.contains "format=" data = true ∧ Str.contains "format=wav" data = false in
  (query_sane data = true ↔ accepted) ∧
  (accepted → status (fst (voicetext upstream now environ w)) ≠ _CODE_400) ∧
  (¬ accepted →
     voicetext upstream now environ w =
       (MkResponse _CODE_400 _HEADERS_JSON _MSG_UNACCEPTABLE,
        _warn "Relay denied -- unacceptable query string" [] w)).
Proof.
  intros Hcaller Hq Hother accepted.
  assert (query_sane data = true ↔ accepted) as Hiff.
  { unfold accepted. rewrite query_sane_split, Hother. simpl.
    rewrite andb_true_iff, negb_true_iff. done. }
  split; [done|]. split.
  - intros Hacc. apply Hiff in Hacc.
    apply (valid_not_400 _ _ _ (default "" (environ !! "REMOTE_ADDR"))).
    by apply (valid_for_caller _ data).
  - intros Hacc. rewrite voicetext_query, Hq by done.
    destruct (query_sane data) eqn:Hs; [|done].
    exfalso. by apply Hacc, Hiff.
Qed.

Lemma format_check_is_substring_witness :
  status (fst (voicetext wav_upstream 0 (get_request "203.0.113.7" sample_query)
                         initial_world)) ≠ _CODE_400.
Proof.
  apply (format_check_is_substring wav_upstream 0
           (get_request "203.0.113.7" sample_query) sample_query initial_world);
    [vm_compute; reflexivity..|].
  split; vm_compute; reflexivity.
Defined.

(** C7, as stated, fails: the query string below passes every other check
    and has a format parameter whose value, wave, is not wav; it is not
    accepted, and the answer is 400. *)
Lemma format_wave_rejected :
  let data := "format=wave&pitch=100&speaker=haruka&speed=100&text=hello&volume=100" in
  other_checks data = true ∧
  spec_format_parameter_not_wav data = true ∧
  query_sane data = false ∧
  fst (voicetext wav_upstream 0 (get_request "203.0.113.7" data) initial_world)
  = MkResponse _CODE_400 _HEADERS_JSON _MSG_UNACCEPTABLE.
Proof. vm_compute. repeat split. Qed.

(** C8 (as amended): for every request whose query string is absent, lacks
    one of pitch=, speaker=, speed=, text=, volume=, or contains format=wav,
    the levels are the same after the request as before it and no upstream
    call is made; and when the request passes the caller-address,
    user-agent and method checks, the answer is 400 with the
    unacceptable-request message. *)
Theorem defective_query_touches_nothing upstream now environ w :
  from_option query_defective true (environ !! "QUERY_STRING") = true →
  let '(r, w') := voicetext upstream now environ w in
  limit_levels w' = limit_levels w ∧
  network w' = network w ∧
  (acceptable_caller environ = true →
   r = MkResponse _CODE_400 _HEADERS_JSON _MSG_UNACCEPTABLE).
Proof.
  intros Hdef.
  assert (∀ addr, valid_for addr environ = false) as Hinvalid.
  { intros addr. destruct (valid_for addr environ) eqn:Hv; [|done].
    apply valid_for_spec in Hv as (_ & _ & _ & _ & data & Hq & Hs).
    rewrite Hq in Hdef. simpl in Hdef.
    apply query_defective_not_sane in Hdef. congruence. }
  pose proof (voicetext_handled upstream now environ w) as Hh.
  pose proof (voicetext_query upstream now environ w) as Hquery.
  destruct (voicetext upstream now environ w) as [r w']. simpl in Hh.
  destruct Hh as [Hst Hl Hn|a d Hva Hc Heq|a Hva Hc Hf Hl];
    [|by rewrite Hinvalid in Hva..].
  split; [done|]. split; [done|].
  intros Hcaller. specialize (Hquery Hcaller).
  destruct (environ !! "QUERY_STRING") as [data|].
  - simpl in Hdef. apply query_defective_not_sane in Hdef.
    rewrite Hdef in Hquery. by inversion Hquery.
  - by inversion Hquery.
Qed.

Lemma defective_query_touches_nothing_witness :
  limit_levels
    (snd (voicetext wav_upstream 0
            (get_request "203.0.113.7" "format=wav&pitch=100&speaker=haruka&speed=100&text=hello&volume=100")
            initial_world))
  = limit_levels initial_world.
Proof.
  pose proof (defective_query_touches_nothing wav_upstream 0
    (get_request "203.0.113.7" "format=wav&pitch=100&speaker=haruka&speed=100&text=hello&volume=100")
    initial_world) as H.
  destruct (voicetext _ _ _ _) as [r w'].
  apply H. vm_compute; reflexivity.
Defined.

(** C8, as stated, fails: a POST request whose query string lacks text= is
    answered 405, not 400. *)
Lemma defective_query_post_405 :
  let data := "format=mp3&pitch=100&speaker=haruka&speed=100&volume=100" in
  query_defective data = true ∧
  fst (voicetext wav_upstream 0 (post_request "203.0.113.7" data) initial_world)
  = MkResponse _CODE_405 _HEADERS_JSON _MSG_UNACCEPTABLE ∧
  _CODE_405 ≠ _CODE_400.
Proof. vm_compute. repeat split. discriminate. Qed.

(** ** Denials *)

(** A sweep creates no entry and changes none. *)
Lemma remove_expired_no_new now levels k level' :
  remove_expired now levels !! k = Some level' →
  ∃ level, levels !! k = Some level ∧ policy level' = policy level ∧
    lookup level' = expire_lookup (now - within level) (lookup level) ∧
    ∀ a i, lookup level' !! a = Some i → lookup level !! a = Some i.
Proof.
  rewrite remove_expired_lookup. intros Hk.
  destruct (levels !! k) as [level|]; [|done].
  simpl in Hk. injection Hk as <-. exists level.
  split; [done|]. split; [done|]. split; [done|].
  intros a i Hs. rewrite lookup_expire_level in Hs.
  by apply expire_lookup_Some in Hs as [? _].
Qed.

(** C3 (as amended): for every request that a level denies (the answer is
    503 or 429), nothing is committed: the levels after the request are the
    levels before it with the expired entries removed and nothing else.  On
    every level the policy is the same, and every entry present afterwards
    was present before with the same creation time and the same call count;
    so no entry is created and no call count is incremented, on the level
    that denied and on every level that passed. *)
Theorem denial_commits_nothing upstream now environ w :
  let '(r, w') := voicetext upstream now environ w in
  status r = _CODE_503 ∨ status r = _CODE_429 →
  limit_levels w' = remove_expired now (limit_levels w) ∧
  ∀ k level', limit_levels w' !! k = Some level' →
    ∃ level, limit_levels w !! k = Some level ∧
      policy level' = policy level ∧
      ∀ a i, lookup level' !! a = Some i → lookup level !! a = Some i.
Proof.
  pose proof (voicetext_handled upstream now environ w) as Hh.
  destruct (voicetext upstream now environ w) as [r w']. simpl in Hh.
  intros Hst.
  assert (limit_levels w' = remove_expired now (limit_levels w)) as Hl.
  { destruct Hh as [Hst' Hl Hn|a d Hva Hc Heq|a Hva Hc Hf Hl].
    - exfalso. destruct Hst as [Hs|Hs], Hst' as [Hs'|[Hs'|Hs']];
        rewrite Hs in Hs'; discriminate.
    - pose proof (limit_levels_deny d a
        (set_levels (remove_expired now (limit_levels w)) w)) as Hd.
      by rewrite <- Heq in Hd.
    - exfalso. destruct Hst as [Hs|Hs], Hf as [Hs'|Hs'];
        rewrite Hs in Hs'; discriminate. }
  split; [done|]. intros k level' Hk. rewrite Hl in Hk.
  destruct (remove_expired_no_new _ _ _ _ Hk) as (level & ? & ? & _ & ?).
  by exists level.
Qed.

Lemma denial_commits_nothing_witness :
  limit_levels (snd (voicetext wav_upstream 30 (get_request caller sample_query)
                               world_after_25))
  = remove_expired 30 (limit_levels world_after_25).
Proof.
  pose proof (denial_commits_nothing wav_upstream 30
                (get_request caller sample_query) world_after_25) as H.
  destruct (voicetext _ _ _ _) as [r w'] eqn:Hr.
  apply H. right.
  change r with (fst (r, w')). rewrite <- Hr. vm_compute. reflexivity.
Defined.

(** C3, as stated, fails: the sweep comes before the check.  After
    [twenty_minutes] the 60-second level holds the caller's entry of
    t = 1159 and the day level counts 500 calls; at t = 1220 the 60-second
    level lets the caller pass, the day level denies with 429, and the
    entry of the 60-second level is gone: the state of a level that passed
    was changed by the denied request. *)
Lemma denial_sweeps_passing_level :
  let w := snd (serve twenty_minutes initial_world) in
  let '(r, w') := voicetext wav_upstream 1220 (get_request caller sample_query) w in
  r = MkResponse _CODE_429 _HEADERS_JSON _MSG_TOO_MANY ∧
  passes caller <$> remove_expired 1220 (limit_levels w) = [true; false] ∧
  (λ level, lookup level !! caller) <$> limit_levels w
    = [Some (Info 1159 25); Some (Info 0 500)] ∧
  (λ level, lookup level !! caller) <$> limit_levels w'
    = [None; Some (Info 0 500)] ∧
  limit_levels w' ≠ limit_levels w.
Proof. vm_compute. repeat split. discriminate. Qed.

(** On the 26th call the first level denies and the second would pass; the
    entry of the caller on the second level stays at 25 calls. *)
Example pass_on_one_level_denial_on_other :
  let '(r, w') := voicetext wav_upstream 30 (get_request caller sample_query)
                            world_after_25 in
  r = MkResponse _CODE_429 _HEADERS_JSON _MSG_TOO_MANY ∧
  (passes caller <$> remove_expired 30 (limit_levels world_after_25)) = [false; true] ∧
  ((λ level, lookup level !! caller) <$> limit_levels world_after_25)
    = [Some (Info 0 25); Some (Info 0 25)] ∧
  ((λ level, lookup level !! caller) <$> limit_levels w')
    = [Some (Info 0 25); Some (Info 0 25)].
Proof. vm_compute. repeat split. Qed.

(** ** Runs *)

Lemma serve_cons c cs w :
  serve (c :: cs) w =
    (fst (handle c w) :: fst (serve cs (snd (handle c w))),
     snd (serve cs (snd (handle c w)))).
Proof.
  simpl. destruct (handle c w) as [r w1]. simpl. by destruct (serve cs w1).
Qed.

Lemma serve_app cs1 cs2 w :
  serve (cs1 ++ cs2) w =
    (fst (serve cs1 w) ++ fst (serve cs2 (snd (serve cs1 w))),
     snd (serve cs2 (snd (serve cs1 w)))).
Proof.
  revert w. induction cs1 as [|c cs1 IH]; intros w.
  - simpl. by destruct (serve cs2 w).
  - rewrite <- app_comm_cons, !serve_cons, IH. done.
Qed.

(** The policies of the levels never change. *)
Lemma policy_handle c w :
  policy <$> limit_levels (snd (handle c w)) = policy <$> limit_levels w.
Proof.
  unfold handle.
  destruct (voicetext_handled (call_upstream c) (call_now c) (call_environ c) w)
    as [Hst Hl Hn|a d Hva Hc Heq|a Hva Hc Hf Hl].
  - by rewrite Hl.
  - pose proof (limit_levels_deny d a
      (set_levels (remove_expired (call_now c) (limit_levels w)) w)) as Hd.
    destruct (voicetext _ _ _ _) as [r w']. rewrite <- Heq in Hd. simpl in *.
    rewrite Hd. unfold remove_expired. rewrite <- list_fmap_compose.
    by apply list_fmap_ext.
  - rewrite Hl. unfold update_levels, remove_expired.
    rewrite <- !list_fmap_compose. by apply list_fmap_ext.
Qed.

Lemma policy_serve cs w :
  policy <$> limit_levels (snd (serve cs w)) = policy <$> limit_levels w.
Proof.
  revert w. induction cs as [|c cs IH]; intros w; [done|].
  rewrite serve_cons. simpl. by rewrite IH, policy_handle.
Qed.

(** ** The number of entries of a level *)

(** The sweep only removes entries. *)
Lemma within_capacity_expire now level :
  within_capacity level → within_capacity (expire_level now level).
Proof.
  unfold within_capacity. rewrite lookup_expire_level. simpl.
  pose proof (size_expire_lookup (now - within level) (lookup level)). lia.
Qed.

(** The update adds an entry only for a caller that has none, and the check
    has let such a caller pass only below the cap. *)
Lemma within_capacity_update now a level :
  within_capacity level → check_level a level = None →
  within_capacity (update_level now a level).
Proof.
  unfold within_capacity, check_level. intros Hcap Hcheck.
  rewrite size_update_level. simpl.
  destruct (lookup level !! a) as [i|]; [done|].
  destruct (Z.geb_spec (Z.of_nat (size (lookup level))) (max_total level)); [done|].
  lia.
Qed.

Lemma within_capacity_handle c w :
  Forall within_capacity (limit_levels w) →
  Forall within_capacity (limit_levels (snd (handle c w))).
Proof.
  intros Hinv. unfold handle.
  assert (Forall within_capacity (remove_expired (call_now c) (limit_levels w))) as Hswept.
  { apply Forall_fmap. eapply Forall_impl; [exact Hinv|].
    intros level. apply within_capacity_expire. }
  destruct (voicetext_handled (call_upstream c) (call_now c) (call_environ c) w)
    as [Hst Hl Hn|a d Hva Hc Heq|a Hva Hc Hf Hl].
  - by rewrite Hl.
  - pose proof (limit_levels_deny d a
      (set_levels (remove_expired (call_now c) (limit_levels w)) w)) as Hd.
    destruct (voicetext _ _ _ _) as [r w']. rewrite <- Heq in Hd. simpl in *.
    by rewrite Hd.
  - rewrite Hl. apply Forall_fmap.
    rewrite check_levels_None in Hc.
    apply Forall_forall. intros level Hin. simpl.
    apply within_capacity_update; [|by apply Hc].
    by eapply Forall_forall in Hswept.
Qed.

Lemma within_capacity_serve cs w :
  Forall within_capacity (limit_levels w) →
  Forall within_capacity (limit_levels (snd (serve cs w))).
Proof.
  revert w. induction cs as [|c cs IH]; intros w Hinv; [done|].
  rewrite serve_cons. simpl. by apply IH, within_capacity_handle.
Qed.

(** C10: for every configuration of levels with non-negative total-caller
    caps, starting from empty lookups and after any sequence of requests
    whatever, every level has the policy it started with and the number of
    entries of its lookup is at most its max_total. *)
Theorem entries_never_exceed_cap cs w :
  Forall (λ level, lookup level = ∅ ∧ 0 ≤ max_total level) (limit_levels w) →
  policy <$> limit_levels (snd (serve cs w)) = policy <$> limit_levels w ∧
  Forall (λ level, Z.of_nat (size (lookup level)) ≤ max_total level)
         (limit_levels (snd (serve cs w))).
Proof.
  intros Hinit. split; [apply policy_serve|].
  apply within_capacity_serve. eapply Forall_impl; [exact Hinit|].
  intros level [Hempty Hcap]. unfold within_capacity.
  by rewrite Hempty, map_size_empty.
Qed.

Lemma entries_never_exceed_cap_witness :
  Forall (λ level, Z.of_nat (size (lookup level)) ≤ max_total level)
         (limit_levels (snd (serve (calls_from 0 (host <$> seq 0 7)) initial_world))).
Proof.
  apply (entries_never_exceed_cap (calls_from 0 (host <$> seq 0 7)) initial_world).
  unfold initial_world, _limit_levels; simpl.
  repeat (apply Forall_cons; split; [split; [reflexivity|simpl; lia]|]).
  apply Forall_nil_2.
Defined.

(** Seven callers at once: the first level takes five and turns the other
    two away, on both levels. *)
Example seven_callers :
  let '(rs, w') := serve (calls_from 0 (host <$> seq 0 7)) initial_world in
  status <$> rs = replicate 5 _CODE_200 ++ replicate 2 _CODE_503 ∧
  (λ level, size (lookup level)) <$> limit_levels w' = [5; 5]%nat.
Proof. vm_compute. by split. Qed.

(** ** The levels after a request that passes validation *)

Lemma voicetext_levels upstream now environ addr w :
  valid_for addr environ = true →
  limit_levels (snd (voicetext upstream now environ w)) =
    match check_levels addr (remove_expired now (limit_levels w)) with
    | Some _ => remove_expired now (limit_levels w)
    | None => update_levels now addr (remove_expired now (limit_levels w))
    end.
Proof.
  intros Hv. destruct (check_levels _ _) as [d|] eqn:Hc.
  - rewrite (voicetext_denied _ _ _ addr w d) by done. by rewrite limit_levels_deny.
  - by apply voicetext_admitted.
Qed.

Lemma voicetext_denial_response upstream now environ addr w d :
  valid_for addr environ = true →
  check_levels addr (remove_expired now (limit_levels w)) = Some d →
  fst (voicetext upstream now environ w) =
    match d with
    | OverCapacity _ _ => MkResponse _CODE_503 _HEADERS_JSON _MSG_CAPACITY
    | TooManyCalls _ _ => MkResponse _CODE_429 _HEADERS_JSON _MSG_TOO_MANY
    end.
Proof.
  intros Hv Hc. rewrite (voicetext_denied _ _ _ addr w d) by done. by destruct d.
Qed.

(** Whether the expired entries are still in the lookups or were already
    removed makes no difference to a request. *)
Lemma voicetext_swept upstream now environ addr w :
  valid_for addr environ = true →
  voicetext upstream now environ w =
  voicetext upstream now environ (set_levels (remove_expired now (limit_levels w)) w).
Proof.
  intros Hv. rewrite !(voicetext_valid _ _ _ addr) by done.
  unfold rate_limit. cbv zeta. cbn [limit_levels set_levels].
  rewrite remove_expired_idemp. unfold set_levels. simpl. done.
Qed.

(** ** Expiry *)

Lemma expire_level_Some now level a i :
  lookup (expire_level now level) !! a = Some i ↔
  lookup level !! a = Some i ∧ now - created i ≤ within level.
Proof.
  rewrite lookup_expire_level, expire_lookup_Some.
  split; intros [? ?]; split; try done; lia.
Qed.

Lemma expire_level_gone now level a i :
  lookup level !! a = Some i → within level < now - created i →
  lookup (expire_level now level) !! a = None.
Proof.
  intros Ha Hold. rewrite lookup_expire_level. apply expire_lookup_None.
  right. exists i. split; [done|lia].
Qed.

(** An entry older than the window is gone after the request, or, for the
    caller of an admitted request, replaced by a new entry with one call. *)
Lemma expired_entry_after upstream now environ addr w k level a i :
  valid_for addr environ = true →
  limit_levels w !! k = Some level →
  lookup level !! a = Some i →
  within level < now - created i →
  ∃ level', limit_levels (snd (voicetext upstream now environ w)) !! k = Some level' ∧
    policy level' = policy level ∧
    (lookup level' !! a = None ∨ a = addr ∧ lookup level' !! a = Some (Info now 1)).
Proof.
  intros Hv Hk Ha Hold. rewrite (voicetext_levels _ _ _ addr) by done.
  pose proof (expire_level_gone now level a i Ha Hold) as Hgone.
  destruct (check_levels _ _) as [d|].
  - exists (expire_level now level). rewrite remove_expired_lookup, Hk. auto.
  - exists (update_level now addr (expire_level now level)).
    rewrite update_levels_lookup, remove_expired_lookup, Hk.
    split; [done|]. split; [done|].
    destruct (decide (addr = a)) as [->|Hne].
    + right. split; [done|]. rewrite update_level_caller.
      unfold updated_info. by rewrite Hgone.
    + left. by rewrite update_level_other.
Qed.

(** C4 (as amended): for every level, an entry is kept by the sweep exactly
    while now - created <= within (so while created >= now - within), and a
    kept entry is unchanged; during every admission check (a request that
    passes validation) every entry with now - created > within is removed
    from its lookup, the caller of an admitted request getting a new entry
    with one call; the request is answered, and the levels are left, as if
    the expired entries had never been there; and with a window of 60
    seconds and a cap of 1, a caller whose first call was at t = 0 is
    admitted again at t = 61. *)
Theorem expired_entries_removed upstream now environ addr w :
  valid_for addr environ = true →
  (∀ level a i,
     lookup (expire_level now level) !! a = Some i ↔
     lookup level !! a = Some i ∧ now - created i ≤ within level) ∧
  (∀ k level a i,
     limit_levels w !! k = Some level →
     lookup level !! a = Some i →
     within level < now - created i →
     ∃ level', limit_levels (snd (voicetext upstream now environ w)) !! k = Some level' ∧
       policy level' = policy level ∧
       (lookup level' !! a = None ∨ a = addr ∧ lookup level' !! a = Some (Info now 1))) ∧
  voicetext upstream now environ w =
    voicetext upstream now environ (set_levels (remove_expired now (limit_levels w)) w) ∧
  status <$> fst (serve [Call 0 (get_request caller sample_query) wav_upstream;
                         Call 61 (get_request caller sample_query) wav_upstream]
                        one_call_a_minute)
    = [_CODE_200; _CODE_200].
Proof.
  intros Hv. split; [|split; [|split]].
  - intros level a i. apply expire_level_Some.
  - intros k level a i. by apply expired_entry_after.
  - by apply (voicetext_swept _ _ _ addr).
  - vm_compute. reflexivity.
Qed.

Lemma expired_entries_removed_witness :
  voicetext wav_upstream 61 (get_request caller sample_query) world_after_25 =
  voicetext wav_upstream 61 (get_request caller sample_query)
            (set_levels (remove_expired 61 (limit_levels world_after_25)) world_after_25).
Proof.
  apply (expired_entries_removed wav_upstream 61 (get_request caller sample_query)
           caller world_after_25).
  vm_compute; reflexivity.
Defined.

(** C4, as stated, fails at the edge of the window: after 25 calls at
    t = 0, at t = 60 the entry of the caller on the 60-second level has
    now - created = 60, which is not below 60; the entry is not removed, and
    the call is denied with it. *)
Lemma entry_kept_at_window_edge :
  let '(r, w') := voicetext wav_upstream 60 (get_request caller sample_query)
                            world_after_25 in
  (λ level, (within level, lookup level !! caller)) <$> take 1 (limit_levels world_after_25)
    = [(60, Some (Info 0 25))] ∧
  ¬ (60 - 0 < 60) ∧
  (λ level, lookup level !! caller) <$> take 1 (limit_levels w') = [Some (Info 0 25)] ∧
  r = MkResponse _CODE_429 _HEADERS_JSON _MSG_TOO_MANY.
Proof. vm_compute. repeat split. discriminate. Qed.

(** ** The total-caller cap *)

(** C2 (as amended): for every level with total-caller cap T, once its
    lookup holds T entries or more in the current window (after the sweep)
    and none of them is the caller's, the next request of that caller that
    passes validation is denied and nothing is committed: the answer is 503
    or 429, and the levels are the swept ones.  The answer is 503 with the
    over-capacity message when no earlier level of the list denies the
    caller; the call counts of the entries play no part. *)
Theorem total_cap_denies upstream now environ addr w i level :
  valid_for addr environ = true →
  remove_expired now (limit_levels w) !! i = Some level →
  lookup level !! addr = None →
  max_total level ≤ Z.of_nat (size (lookup level)) →
  let '(r, w') := voicetext upstream now environ w in
  (status r = _CODE_503 ∨ status r = _CODE_429) ∧
  limit_levels w' = remove_expired now (limit_levels w) ∧
  (forallb (passes addr) (take i (remove_expired now (limit_levels w))) = true →
   r = MkResponse _CODE_503 _HEADERS_JSON _MSG_CAPACITY).
Proof.
  intros Hv Hi Ha Hfull.
  assert (check_level addr level
          = Some (OverCapacity (Z.of_nat (size (lookup level))) (within level))) as Hdeny.
  { unfold check_level. rewrite Ha.
    destruct (Z.geb_spec (Z.of_nat (size (lookup level))) (max_total level)); [done|lia]. }
  destruct (check_levels_some addr _ level _ (list_elem_of_lookup_2 _ _ _ Hi) Hdeny)
    as [d Hd].
  pose proof (voicetext_levels upstream now environ addr w Hv) as Hl.
  pose proof (voicetext_denial_response upstream now environ addr w d Hv Hd) as Hr.
  destruct (voicetext upstream now environ w) as [r w']. simpl in *.
  rewrite Hd in Hl. split; [|split; [done|]].
  - rewrite Hr. destruct d; auto.
  - intros Hbefore.
    rewrite (check_levels_first addr _ i level _ Hi Hbefore Hdeny) in Hd.
    injection Hd as <-. done.
Qed.

Lemma total_cap_denies_witness :
  fst (voicetext wav_upstream 0 (get_request caller sample_query) five_callers)
  = MkResponse _CODE_503 _HEADERS_JSON _MSG_CAPACITY.
Proof.
  pose proof (total_cap_denies wav_upstream 0 (get_request caller sample_query) caller
                five_callers 0
                (level_at 0 (remove_expired 0 (limit_levels five_callers)))) as H.
  destruct (voicetext _ _ _ _) as [r w'].
  apply H.
  - vm_compute; reflexivity.
  - vm_compute; reflexivity.
  - vm_compute; reflexivity.
  - vm_compute; discriminate.
  - vm_compute; reflexivity.
Defined.

(** C2, as stated, fails: after [a_day], at t = 86402 the second level
    (cap 100) holds 100 entries, none of them the caller's, and the call of
    the caller is denied with 429 by the first level, not with 503. *)
Lemma total_cap_behind_per_caller_cap :
  let w := snd (serve a_day initial_world) in
  status <$> fst (serve a_day initial_world) = replicate (length a_day) _CODE_200 ∧
  (λ level, (max_total level, size (lookup level), lookup level !! caller))
    <$> remove_expired 86402 (limit_levels w)
    = [(5, 2%nat, Some (Info 86390 25)); (100, 100%nat, None)] ∧
  fst (voicetext wav_upstream 86402 (get_request caller sample_query) w)
    = MkResponse _CODE_429 _HEADERS_JSON _MSG_TOO_MANY.
Proof. vm_compute. repeat split. Qed.

(** ** The per-caller cap *)

Lemma others_admit_app i a cs1 cs2 w :
  others_admit i a (cs1 ++ cs2) w =
    others_admit i a cs1 w && others_admit i a cs2 (snd (serve cs1 w)).
Proof.
  revert w. induction cs1 as [|c cs1 IH]; intros w; [done|].
  rewrite <- app_comm_cons, serve_cons. simpl. by rewrite IH, andb_assoc.
Qed.

Section window.
(** The caller, the index of the level, and the level's window and
    per-caller cap. *)
Variables (addr : string) (i : nat) (wi M : Z).

(** The call that opens the window: the caller has no entry left and the
    level has room for one more caller. *)
Lemma opening_call c w level :
  valid_for addr (call_environ c) = true →
  limit_levels w !! i = Some level →
  within level = wi → max_single level = M →
  lookup (expire_level (call_now c) level) !! addr = None →
  Z.of_nat (size (lookup (expire_level (call_now c) level))) < max_total level →
  others_pass i addr (remove_expired (call_now c) (limit_levels w)) = true →
  forwarded (fst (handle c w)) ∧
  level_has addr i wi M (snd (handle c w)) (Some (Info (call_now c) 1)).
Proof.
  intros Hv Hi Hwi HM Hnone Hroom Hothers. unfold handle.
  assert (remove_expired (call_now c) (limit_levels w) !! i
          = Some (expire_level (call_now c) level)) as Hswept.
  { by rewrite remove_expired_lookup, Hi. }
  assert (check_levels addr (remove_expired (call_now c) (limit_levels w)) = None) as Hc.
  { rewrite (check_levels_only _ _ i _ Hswept Hothers).
    unfold check_level. rewrite Hnone.
    destruct (Z.geb_spec (Z.of_nat (size (lookup (expire_level (call_now c) level))))
                         (max_total (expire_level (call_now c) level))) as [Hge|];
      [|done].
    change (max_total (expire_level (call_now c) level)) with (max_total level) in Hge.
    lia. }
  destruct (voicetext_admitted (call_upstream c) (call_now c) (call_environ c) addr w)
    as [Hf Hl]; [done..|].
  split; [done|]. unfold level_has. rewrite Hl.
  exists (update_level (call_now c) addr (expire_level (call_now c) level)).
  rewrite update_levels_lookup, Hswept. split; [done|].
  split; [done|]. split; [done|].
  rewrite update_level_caller. unfold updated_info. by rewrite Hnone.
Qed.

(** A later call in the window, below the cap. *)
Lemma counted_call c w t1 n :
  valid_for addr (call_environ c) = true →
  level_has addr i wi M w (Some (Info t1 n)) →
  call_now c - wi ≤ t1 →
  n < M →
  others_pass i addr (remove_expired (call_now c) (limit_levels w)) = true →
  forwarded (fst (handle c w)) ∧
  level_has addr i wi M (snd (handle c w)) (Some (Info t1 (n + 1))).
Proof.
  intros Hv (level & Hi & Hwi & HM & Hentry) Hfresh Hbelow Hothers. unfold handle.
  assert (remove_expired (call_now c) (limit_levels w) !! i
          = Some (expire_level (call_now c) level)) as Hswept.
  { by rewrite remove_expired_lookup, Hi. }
  assert (lookup (expire_level (call_now c) level) !! addr = Some (Info t1 n)) as Hkept.
  { apply expire_level_Some. split; [done|]. simpl. lia. }
  assert (check_levels addr (remove_expired (call_now c) (limit_levels w)) = None) as Hc.
  { rewrite (check_levels_only _ _ i _ Hswept Hothers).
    unfold check_level. rewrite Hkept. simpl.
    destruct (Z.geb_spec n (max_single level)); [lia|done]. }
  destruct (voicetext_admitted (call_upstream c) (call_now c) (call_environ c) addr w)
    as [Hf Hl]; [done..|].
  split; [done|]. unfold level_has. rewrite Hl.
  exists (update_level (call_now c) addr (expire_level (call_now c) level)).
  rewrite update_levels_lookup, Hswept. split; [done|].
  split; [done|]. split; [done|].
  rewrite update_level_caller. unfold updated_info. by rewrite Hkept.
Qed.

(** A call in the window, at the cap. *)
Lemma capped_call c w t1 n :
  valid_for addr (call_environ c) = true →
  level_has addr i wi M w (Some (Info t1 n)) →
  call_now c - wi ≤ t1 →
  M ≤ n →
  others_pass i addr (remove_expired (call_now c) (limit_levels w)) = true →
  fst (handle c w) = MkResponse _CODE_429 _HEADERS_JSON _MSG_TOO_MANY ∧
  limit_levels (snd (handle c w)) = remove_expired (call_now c) (limit_levels w).
Proof.
  intros Hv (level & Hi & Hwi & HM & Hentry) Hfresh Hcap Hothers. unfold handle.
  assert (remove_expired (call_now c) (limit_levels w) !! i
          = Some (expire_level (call_now c) level)) as Hswept.
  { by rewrite remove_expired_lookup, Hi. }
  assert (lookup (expire_level (call_now c) level) !! addr = Some (Info t1 n)) as Hkept.
  { apply expire_level_Some. split; [done|]. simpl. lia. }
  assert (check_levels addr (remove_expired (call_now c) (limit_levels w))
          = Some (TooManyCalls n wi)) as Hc.
  { rewrite (check_levels_only _ _ i _ Hswept Hothers).
    unfold check_level. rewrite Hkept. simpl.
    destruct (Z.geb_spec n (max_single level)); [by rewrite Hwi|lia]. }
  split.
  - by rewrite (voicetext_denial_response _ _ _ addr w _ Hv Hc).
  - rewrite (voicetext_levels _ _ _ addr) by done. by rewrite Hc.
Qed.

(** Calls in the window up to the cap are all let through and counted. *)
Lemma counted_calls cs w t1 n :
  forallb (λ c, valid_for addr (call_environ c)) cs = true →
  level_has addr i wi M w (Some (Info t1 n)) →
  Forall (λ c, call_now c - wi ≤ t1) cs →
  n + Z.of_nat (length cs) ≤ M →
  others_admit i addr cs w = true →
  Forall forwarded (fst (serve cs w)) ∧
  level_has addr i wi M (snd (serve cs w)) (Some (Info t1 (n + Z.of_nat (length cs)))).
Proof.
  revert w n. induction cs as [|c cs IH]; intros w n Hv Hlevel Hfresh Hn Hothers.
  - simpl. split; [constructor|]. by rewrite Z.add_0_r.
  - simpl in Hv, Hothers. rewrite length_cons in Hn |- *.
    apply andb_true_iff in Hv as [Hvc Hv].
    apply andb_true_iff in Hothers as [Hoc Hothers].
    apply Forall_cons in Hfresh as [Hfc Hfresh].
    destruct (counted_call c w t1 n) as [Hf Hlevel']; [done..|lia|done|].
    destruct (IH (snd (handle c w)) (n + 1)) as [Hfs Hlevel'']; [done..|lia|done|].
    rewrite serve_cons. simpl. split; [by constructor|].
    replace (n + Z.of_nat (S (length cs))) with (n + 1 + Z.of_nat (length cs)) by lia.
    done.
Qed.

End window.

(** The calls of other callers between the attempts of the caller. *)

Lemma valid_for_passes addr environ :
  valid_for addr environ = true →
  default "" (environ !! "REMOTE_ADDR") = addr ∧ passes_validation environ = true.
Proof.
  intros Hv. pose proof Hv as (Ha & _)%valid_for_spec.
  unfold passes_validation. rewrite Ha. by split.
Qed.

Lemma others_admit_caller_app i a cs1 cs2 w :
  others_admit_caller i a (cs1 ++ cs2) w =
    others_admit_caller i a cs1 w && others_admit_caller i a cs2 (snd (serve cs1 w)).
Proof.
  revert w. induction cs1 as [|c cs1 IH]; intros w; [done|].
  rewrite <- app_comm_cons, serve_cons. simpl. by rewrite IH, andb_assoc.
Qed.

Lemma answers_to_cons addr c cs r rs :
  answers_to addr (c :: cs) (r :: rs) =
    if valid_for addr (call_environ c) then r :: answers_to addr cs rs
    else answers_to addr cs rs.
Proof.
  unfold answers_to. cbn [combine List.filter fst].
  by destruct (valid_for addr (call_environ c)).
Qed.

(** A call that names another address leaves the entry of the caller as it
    is, unless it sweeps it. *)
Lemma foreign_call addr i wi M c w t1 n :
  String.eqb (default "" (call_environ c !! "REMOTE_ADDR")) addr = false →
  level_has addr i wi M w (Some (Info t1 n)) →
  keeps_alive wi t1 c = true →
  level_has addr i wi M (snd (handle c w)) (Some (Info t1 n)).
Proof.
  intros Hforeign (level & Hi & Hwi & HM & Hentry) Halive. unfold handle, level_has.
  apply String.eqb_neq in Hforeign.
  assert (∀ a, valid_for a (call_environ c) = true →
            a ≠ addr ∧
            lookup (expire_level (call_now c) level) !! addr = Some (Info t1 n)) as Hvalid.
  { intros a Hva. destruct (valid_for_passes _ _ Hva) as [Ha Hp].
    split; [congruence|].
    unfold keeps_alive in Halive. rewrite Hp in Halive. cbn [negb orb] in Halive.
    apply Z.leb_le in Halive. apply expire_level_Some. split; [done|]. simpl. lia. }
  destruct (voicetext_handled (call_upstream c) (call_now c) (call_environ c) w)
    as [Hst Hl Hn|a d Hva Hc Heq|a Hva Hc Hf Hl].
  - rewrite Hl. by exists level.
  - pose proof (limit_levels_deny d a
      (set_levels (remove_expired (call_now c) (limit_levels w)) w)) as Hd.
    rewrite <- Heq in Hd. cbn [snd set_levels limit_levels] in Hd. rewrite Hd.
    destruct (Hvalid a Hva) as [_ Hkept].
    exists (expire_level (call_now c) level).
    by rewrite remove_expired_lookup, Hi.
  - rewrite Hl. destruct (Hvalid a Hva) as [Hne Hkept].
    exists (update_level (call_now c) a (expire_level (call_now c) level)).
    rewrite update_levels_lookup, remove_expired_lookup, Hi.
    split; [done|]. split; [done|]. split; [done|].
    by rewrite update_level_other.
Qed.

(** The calls between the first attempt of the caller and the one that
    reaches the cap: the attempts of the caller are let through and
    counted, and the calls of the others leave the count as it is. *)
Lemma mixed_calls addr i wi M cs w t1 n :
  forallb (own_or_foreign addr) cs = true →
  level_has addr i wi M w (Some (Info t1 n)) →
  forallb (keeps_alive wi t1) cs = true →
  n + Z.of_nat (length (attempts addr cs)) ≤ M →
  others_admit_caller i addr cs w = true →
  Forall forwarded (answers_to addr cs (fst (serve cs w))) ∧
  length (answers_to addr cs (fst (serve cs w))) = length (attempts addr cs) ∧
  level_has addr i wi M (snd (serve cs w))
            (Some (Info t1 (n + Z.of_nat (length (attempts addr cs))))).
Proof.
  revert w n. induction cs as [|c cs IH]; intros w n Hown Hlevel Halive Hn Hothers.
  - simpl. split; [constructor|]. split; [done|]. by rewrite Z.add_0_r.
  - cbn [forallb] in Hown, Halive. cbn [others_admit_caller] in Hothers.
    apply andb_true_iff in Hown as [Hc Hown].
    apply andb_true_iff in Halive as [Hac Halive].
    apply andb_true_iff in Hothers as [Hoc Hothers].
    rewrite serve_cons. cbn [fst snd]. rewrite answers_to_cons.
    unfold attempts in *. cbn [List.filter] in Hn |- *.
    destruct (valid_for addr (call_environ c)) eqn:Hv.
    + cbn [negb orb] in Hoc. cbn [length] in Hn |- *.
      destruct (valid_for_passes _ _ Hv) as [_ Hp].
      unfold keeps_alive in Hac. rewrite Hp in Hac. cbn [negb orb] in Hac.
      apply Z.leb_le in Hac.
      destruct (counted_call addr i wi M c w t1 n) as [Hf Hlevel']; [done..|lia|done|].
      destruct (IH (snd (handle c w)) (n + 1)) as (Hfs & Hlen & Hlevel'');
        [done..|lia|done|].
      split; [by constructor|]. split; [by rewrite Hlen|].
      replace (n + Z.of_nat (S (length (List.filter
                 (λ c0, valid_for addr (call_environ c0)) cs))))
        with (n + 1 + Z.of_nat (length (List.filter
                 (λ c0, valid_for addr (call_environ c0)) cs))) by lia.
      done.
    + unfold own_or_foreign in Hc. rewrite Hv in Hc. cbn [orb] in Hc.
      apply negb_true_iff in Hc.
      apply IH; [done| |done..].
      by apply foreign_call.
Qed.

(** C1 (as amended): for every level with per-caller cap M (at least 1, as
    the configured caps are) and every caller whose requests pass
    validation, if the caller makes M + 1 calls, with calls of other
    callers in between or not, of which the first opens the window on that
    level (the caller has no live entry there and the level is below its
    total-caller cap), no call in between sweeps the caller's entry and no
    other level denies the caller, then the first M calls of the caller are
    let through to the upstream and the (M + 1)-th is answered 429 with the
    too-many-calls message, the levels being only swept by it. *)
Theorem per_caller_cap addr i level first middle last w :
  limit_levels w !! i = Some level →
  1 ≤ max_single level →
  S (length (attempts addr middle)) = Z.to_nat (max_single level) →
  valid_for addr (call_environ first) = true →
  forallb (own_or_foreign addr) middle = true →
  valid_for addr (call_environ last) = true →
  lookup (expire_level (call_now first) level) !! addr = None →
  Z.of_nat (size (lookup (expire_level (call_now first) level))) < max_total level →
  forallb (keeps_alive (within level) (call_now first)) (middle ++ [last]) = true →
  others_admit_caller i addr (first :: middle ++ [last]) w = true →
  let '(rs, w') := serve (first :: middle) w in
  Forall forwarded (answers_to addr (first :: middle) rs) ∧
  Z.of_nat (length (answers_to addr (first :: middle) rs)) = max_single level ∧
  let '(r, w'') := handle last w' in
  r = MkResponse _CODE_429 _HEADERS_JSON _MSG_TOO_MANY ∧
  limit_levels w'' = remove_expired (call_now last) (limit_levels w').
Proof.
  intros Hi HM Hlen Hv1 Hown Hvlast Hnone Hroom Halive Hothers.
  cbn [others_admit_caller] in Hothers. rewrite Hv1 in Hothers. cbn [negb orb] in Hothers.
  apply andb_true_iff in Hothers as [Ho1 Hothers].
  rewrite others_admit_caller_app in Hothers.
  apply andb_true_iff in Hothers as [Homid Holast].
  cbn [others_admit_caller] in Holast. rewrite Hvlast in Holast.
  cbn [negb orb] in Holast. rewrite andb_true_r in Holast.
  rewrite forallb_app in Halive.
  apply andb_true_iff in Halive as [Hamid Halast]. cbn [forallb] in Halast.
  rewrite andb_true_r in Halast.
  destruct (valid_for_passes _ _ Hvlast) as [_ Hplast].
  unfold keeps_alive in Halast. rewrite Hplast in Halast. cbn [negb orb] in Halast.
  apply Z.leb_le in Halast.
  destruct (opening_call addr i (within level) (max_single level) first w level)
    as [Hf1 Hlevel1]; [done..|].
  destruct (mixed_calls addr i (within level) (max_single level) middle
              (snd (handle first w)) (call_now first) 1)
    as (Hfs & Hcount & Hlevel2); [done..|lia|done|].
  destruct (capped_call addr i (within level) (max_single level) last
              (snd (serve middle (snd (handle first w)))) (call_now first)
              (1 + Z.of_nat (length (attempts addr middle))))
    as [Hr Hl]; [done..|lia|done|].
  rewrite serve_cons. rewrite answers_to_cons, Hv1.
  destruct (handle last _) as [r w'']. cbn [fst snd] in Hr, Hl.
  split; [by constructor|]. split; [|done].
  rewrite length_cons, Hcount. lia.
Qed.

Lemma per_caller_cap_witness :
  let '(rs, w') := serve (Call 0 (get_request caller sample_query) wav_upstream
                          :: mixed_minute) initial_world in
  Forall forwarded
    (answers_to caller
       (Call 0 (get_request caller sample_query) wav_upstream :: mixed_minute) rs) ∧
  Z.of_nat (length
    (answers_to caller
       (Call 0 (get_request caller sample_query) wav_upstream :: mixed_minute) rs))
  = max_single (MkLimitLevel 60 25 5 ∅) ∧
  let '(r, w'') := handle (Call 30 (get_request caller sample_query) wav_upstream) w' in
  r = MkResponse _CODE_429 _HEADERS_JSON _MSG_TOO_MANY ∧
  limit_levels w'' = remove_expired 30 (limit_levels w').
Proof.
  apply (per_caller_cap caller 0 (MkLimitLevel 60 25 5 ∅)
           (Call 0 (get_request caller sample_query) wav_upstream)
           mixed_minute
           (Call 30 (get_request caller sample_query) wav_upstream)
           initial_world).
  - reflexivity.
  - simpl; lia.
  - vm_compute; reflexivity.
  - vm_compute; reflexivity.
  - vm_compute; reflexivity.
  - vm_compute; reflexivity.
  - vm_compute; reflexivity.
  - vm_compute; reflexivity.
  - vm_compute; reflexivity.
  - vm_compute; reflexivity.
Defined.

(** C1, as stated, fails: on the configured levels, when five other callers
    hold the 60-second level, the 26 calls of one more caller within the
    window are all answered 503 by that level, no entry expiring and the
    other level denying nothing. *)
Lemma per_caller_cap_exceptions :
  max_single <$> limit_levels five_callers = [25; 500] ∧
  others_admit 0 caller (calls_at 1 caller 26) five_callers = true ∧
  fst (serve (calls_at 1 caller 26) five_callers)
    = replicate 26 (MkResponse _CODE_503 _HEADERS_JSON _MSG_CAPACITY) ∧
  limit_levels (snd (serve (calls_at 1 caller 26) five_callers))
    = limit_levels five_callers.
Proof. vm_compute. repeat split. Qed.

(** * Further properties of the relay *)

(** ** The validation steps *)

(** The five ways through the validation steps, with what the handler
    returns on each of the four early ones. *)
Lemma voicetext_stages upstream now environ w :
  let addr := default "" (environ !! "REMOTE_ADDR") in
  let agent := default "" (environ !! "HTTP_USER_AGENT") in
  (addr = "" ∧
   voicetext upstream now environ w =
     (MkResponse _CODE_403 _HEADERS_JSON _MSG_DENIED,
      _warn "Relay denied -- no remote IP address" [] w)) ∨
  (addr ≠ "" ∧ Str.startswith agent _AWESOMETTS = false ∧
   voicetext upstream now environ w =
     (MkResponse _CODE_403 _HEADERS_JSON _MSG_DENIED,
      _warn "Relay denied -- unauthorized user agent" [] w)) ∨
  (addr ≠ "" ∧ Str.startswith agent _AWESOMETTS = true ∧
   environ !! "REQUEST_METHOD" ≠ Some "GET" ∧
   voicetext upstream now environ w =
     (MkResponse _CODE_405 _HEADERS_JSON _MSG_UNACCEPTABLE,
      _warn "Relay denied -- unacceptable request method" [] w)) ∨
  (acceptable_caller environ = true ∧
   from_option query_sane false (environ !! "QUERY_STRING") = false ∧
   voicetext upstream now environ w = unacceptable w) ∨
  (acceptable_caller environ = true ∧ valid_for addr environ = true).
Proof.
  intros addr agent. unfold voicetext, acceptable_caller. fold addr agent.
  destruct (String.eqb_spec addr "") as [Ha|Ha]; [by left|]. right.
  destruct (Str.startswith agent _AWESOMETTS) eqn:Hua; simpl; [|by left]. right.
  destruct (bool_decide (environ !! "REQUEST_METHOD" = Some "GET")) eqn:Hm; simpl.
  2:{ left. apply bool_decide_eq_false in Hm. done. }
  right. destruct (environ !! "QUERY_STRING") as [data|] eqn:Hq; simpl.
  2:{ by left. }
  destruct (query_sane data) eqn:Hs; simpl; [|by left].
  right. split; [done|]. apply valid_for_spec.
  apply bool_decide_eq_true in Hm. subst addr agent.
  destruct (environ !! "REMOTE_ADDR") as [a|] eqn:Hra; [|done].
  rewrite Hq. simpl in *. eauto 10.
Qed.

(** A request that passes validation is answered by the rate limiter or by
    the upstream stage. *)
Lemma valid_statuses upstream now environ addr w :
  valid_for addr environ = true →
  let r := fst (voicetext upstream now environ w) in
  status r = _CODE_503 ∨ status r = _CODE_429 ∨ forwarded r.
Proof.
  intros Hv. simpl.
  destruct (check_levels addr (remove_expired now (limit_levels w))) as [d|] eqn:Hc.
  - rewrite (voicetext_denial_response _ _ _ addr w d) by done.
    destruct d; auto.
  - right; right. by apply (voicetext_admitted _ _ _ addr).
Qed.

(** X1: the answer is 403 exactly when the caller address is absent or
    empty or the user agent does not begin with the tag of the add-on; 405
    exactly when those two are in order and the method is not GET (or is
    absent); 400 exactly when the first three steps pass and the query
    string is absent or fails the sanity check.  The later stages never
    answer with one of these three codes. *)
Theorem status_of_validation upstream now environ w :
  let r := fst (voicetext upstream now environ w) in
  let addr := default "" (environ !! "REMOTE_ADDR") in
  let known_agent :=
    Str.startswith (default "" (environ !! "HTTP_USER_AGENT")) _AWESOMETTS in
  (status r = _CODE_403 ↔ addr = "" ∨ known_agent = false) ∧
  (status r = _CODE_405 ↔
     addr ≠ "" ∧ known_agent = true ∧ environ !! "REQUEST_METHOD" ≠ Some "GET") ∧
  (status r = _CODE_400 ↔
     acceptable_caller environ = true ∧
     from_option query_sane false (environ !! "QUERY_STRING") = false).
Proof.
  intros r addr known_agent. subst r known_agent.
  assert (∀ e, acceptable_caller e = true →
            default "" (e !! "REMOTE_ADDR") ≠ "" ∧
            Str.startswith (default "" (e !! "HTTP_USER_AGENT")) _AWESOMETTS = true ∧
            e !! "REQUEST_METHOD" = Some "GET") as Hacc.
  { intros e. unfold acceptable_caller.
    rewrite !andb_true_iff, negb_true_iff, String.eqb_neq, bool_decide_eq_true. tauto. }
  destruct (voicetext_stages upstream now environ w)
    as [[Ha ->]|[(Ha & Hua & ->)|[(Ha & Hua & Hm & ->)|[(Hc & Hq & ->)|[Hc Hv]]]]];
    fold addr in Ha || idtac; simpl.
  - repeat split; try done; try tauto.
    intros [Hc _]. apply Hacc in Hc. tauto.
  - repeat split; try done; try tauto.
    + intros (_ & Hk & _). congruence.
    + intros [Hc _]. apply Hacc in Hc. destruct Hc as (_ & Hk & _). congruence.
  - repeat split; try done.
    + intros [?|?]; [done|congruence].
    + intros [Hc _]. apply Hacc in Hc. tauto.
  - apply Hacc in Hc as Hc'. destruct Hc' as (Ha & Hua & Hm).
    repeat split; try done.
    + intros [?|?]; [done|congruence].
    + tauto.
  - apply Hacc in Hc as Hc'. destruct Hc' as (Ha & Hua & Hm).
    pose proof (valid_for_spec addr environ) as [Hspec _].
    destruct (Hspec Hv) as (_ & _ & _ & _ & data & Hq & Hs).
    destruct (valid_statuses upstream now environ addr w Hv) as [Hst|[Hst|[Hst|Hst]]];
      rewrite Hst; repeat split; try done;
      try (intros [?|?]; [done|congruence]); try tauto;
      intros [_ Hbad]; rewrite Hq in Hbad; simpl in Hbad; congruence.
Qed.

(** X2: a request that is answered 403, 405 or 400 leaves the levels and
    the network as they are, writes one warning without arguments to the
    log and nothing else, and carries the JSON content type. *)
Theorem early_rejection_only_logs upstream now environ w :
  let '(r, w') := voicetext upstream now environ w in
  status r = _CODE_403 ∨ status r = _CODE_405 ∨ status r = _CODE_400 →
  limit_levels w' = limit_levels w ∧
  network w' = network w ∧
  headers r = _HEADERS_JSON ∧
  ∃ text, records w' = records w ++ [MkLog WARNING text []].
Proof.
  pose proof (voicetext_stages upstream now environ w) as Hstages.
  pose proof (valid_statuses upstream now environ
                (default "" (environ !! "REMOTE_ADDR")) w) as Hvalid.
  simpl in Hstages, Hvalid.
  destruct (voicetext upstream now environ w) as [r w']. intros Hst.
  destruct Hstages
    as [[Ha Heq]|[(Ha & Hua & Heq)|[(Ha & Hua & Hm & Heq)|[(Hc & Hq & Heq)|[Hc Hv]]]]];
    try (injection Heq as -> ->; repeat split; try done; by eexists).
  exfalso. simpl in Hvalid.
  destruct (Hvalid Hv) as [Hs|[Hs|[Hs|Hs]]], Hst as [Hs'|[Hs'|Hs']];
    rewrite Hs in Hs'; discriminate.
Qed.

Lemma early_rejection_only_logs_witness :
  limit_levels (snd (voicetext wav_upstream 40 (post_request caller sample_query)
                               world_after_25))
  = limit_levels world_after_25.
Proof.
  pose proof (early_rejection_only_logs wav_upstream 40
                (post_request caller sample_query) world_after_25) as H.
  destruct (voicetext _ _ _ _) as [r w'] eqn:Hr.
  apply H. right; left.
  change r with (fst (r, w')). rewrite <- Hr. vm_compute. reflexivity.
Defined.

(** ** The answers *)

(** X3: every answer of the handler is one of the six fixed JSON error
    answers, or a 200 whose only header is a content type that begins with
    audio/ and whose body is a single chunk. *)
Theorem answer_shapes upstream now environ w :
  let r := fst (voicetext upstream now environ w) in
  r ∈ [MkResponse _CODE_403 _HEADERS_JSON _MSG_DENIED;
       MkResponse _CODE_405 _HEADERS_JSON _MSG_UNACCEPTABLE;
       MkResponse _CODE_400 _HEADERS_JSON _MSG_UNACCEPTABLE;
       MkResponse _CODE_503 _HEADERS_JSON _MSG_CAPACITY;
       MkResponse _CODE_429 _HEADERS_JSON _MSG_TOO_MANY;
       MkResponse _CODE_502 _HEADERS_JSON _MSG_UPSTREAM] ∨
  ∃ mime payload,
    Str.startswith mime "audio/" = true ∧
    r = MkResponse _CODE_200 [("Content-Type", mime)] [payload].
Proof.
  cbv zeta.
  assert (∀ (r : Response) (l : list Response), r ∈ l → r ∈ l ∨
            ∃ mime payload, Str.startswith mime "audio/" = true ∧
              r = MkResponse _CODE_200 [("Content-Type", mime)] [payload]) as Hfixed.
  { intros r l Hr. by left. }
  destruct (voicetext_stages upstream now environ w)
    as [[Ha ->]|[(Ha & Hua & ->)|[(Ha & Hua & Hm & ->)|[(Hc & Hq & ->)|[Hc Hv]]]]].
  1-2: apply Hfixed; cbn [fst]; apply list_elem_of_here.
  1: apply Hfixed; cbn [fst]; apply list_elem_of_further, list_elem_of_here.
  1: apply Hfixed; unfold unacceptable; cbn [fst];
    do 2 apply list_elem_of_further; apply list_elem_of_here.
  rewrite (voicetext_valid _ _ _ _ _ Hv). unfold rate_limit. cbv zeta.
  destruct (check_levels _ _) as [[]|]; cbn [deny fst].
  { apply Hfixed. do 3 apply list_elem_of_further. apply list_elem_of_here. }
  { apply Hfixed. do 4 apply list_elem_of_further. apply list_elem_of_here. }
  assert (MkResponse _CODE_502 _HEADERS_JSON _MSG_UPSTREAM
                ∈ [MkResponse _CODE_403 _HEADERS_JSON _MSG_DENIED;
                   MkResponse _CODE_405 _HEADERS_JSON _MSG_UNACCEPTABLE;
                   MkResponse _CODE_400 _HEADERS_JSON _MSG_UNACCEPTABLE;
                   MkResponse _CODE_503 _HEADERS_JSON _MSG_CAPACITY;
                   MkResponse _CODE_429 _HEADERS_JSON _MSG_TOO_MANY;
                   MkResponse _CODE_502 _HEADERS_JSON _MSG_UPSTREAM]) as H502.
  { do 5 apply list_elem_of_further. apply list_elem_of_here. }
  unfold fetch, relay_failed. cbv zeta.
  destruct (upstream _ _) as [exc|response]; cbn [fst]; [by apply Hfixed|].
  destruct (getcode response =? 200); cbn [negb fst]; [|by apply Hfixed].
  destruct (Str.startswith (gettype response) "audio/") eqn:Hty; cbn [negb fst];
    [|by apply Hfixed].
  destruct (read response) as [exc|payload]; cbn [fst]; [by apply Hfixed|].
  right. by exists (gettype response), payload.
Qed.

(** ** The upstream call *)

Lemma fetch_network upstream data w :
  let request := upstream_request data in
  (∃ exc, upstream request 10 = Raise exc ∧
     network (snd (fetch upstream data w)) = network w ++ [UrlOpen request 10]) ∨
  (∃ response, upstream request 10 = Return response ∧
     network (snd (fetch upstream data w)) = network w ++ [UrlOpen request 10; Close]).
Proof.
  cbv zeta. unfold fetch, relay_failed, upstream_request. cbv zeta.
  change _API_VOICETEXT_TIMEOUT with 10.
  destruct (upstream _ 10) as [exc|response].
  - left. by exists exc.
  - right. exists response. split; [done|].
    destruct (getcode response =? 200); cbn [negb].
    2:{ simpl. by rewrite <- app_assoc. }
    destruct (Str.startswith (gettype response) "audio/"); cbn [negb].
    2:{ simpl. by rewrite <- app_assoc. }
    destruct (read response); simpl; by rewrite <- app_assoc.
Qed.

(** X4: a request makes no upstream call unless it is let through, and then
    exactly one: to the fixed endpoint, with the query string as data, the
    authorization header and the timeout of 10 seconds.  When [urlopen]
    returns a response the response is closed, whatever comes after; when
    it raises there is nothing to close. *)
Theorem upstream_call_discipline upstream now environ w :
  let r := fst (voicetext upstream now environ w) in
  let w' := snd (voicetext upstream now environ w) in
  let request := upstream_request (default "" (environ !! "QUERY_STRING")) in
  (¬ forwarded r ∧ network w' = network w) ∨
  (forwarded r ∧
   request = MkRequest _API_VOICETEXT_ENDPOINT (default "" (environ !! "QUERY_STRING"))
                       _API_VOICETEXT_AUTH ∧
   ((∃ exc, upstream request 10 = Raise exc ∧
            network w' = network w ++ [UrlOpen request 10]) ∨
    (∃ response, upstream request 10 = Return response ∧
            network w' = network w ++ [UrlOpen request 10; Close]))).
Proof.
  cbv zeta.
  destruct (voicetext_stages upstream now environ w)
    as [[Ha ->]|[(Ha & Hua & ->)|[(Ha & Hua & Hm & ->)|[(Hc & Hq & ->)|[Hc Hv]]]]].
  1-4: left; split; [by intros [?|?]|done].
  rewrite (voicetext_valid _ _ _ _ _ Hv). unfold rate_limit. cbv zeta.
  destruct (check_levels _ _) as [[]|]; cbn [deny fst snd].
  1-2: left; split; [by intros [?|?]|done].
  right. split; [apply forwarded_fetch|]. split; [done|].
  match goal with |- context [fetch upstream ?d ?w0] =>
    destruct (fetch_network upstream d w0) as [(exc & Hu & Hn)|(response & Hu & Hn)]
  end.
  - left. exists exc. split; [done|]. by rewrite Hn.
  - right. exists response. split; [done|]. by rewrite Hn.
Qed.

(** ** The log *)

Lemma fetch_records upstream data w :
  let '(r, w') := fetch upstream data w in
  (status r = _CODE_200 ∧ records w' = records w) ∨
  (status r = _CODE_502 ∧
   ∃ detail, records w' = records w ++ [MkLog ERROR "Relay failed -- %s" [ArgStr detail]]).
Proof.
  unfold fetch, relay_failed. cbv zeta.
  destruct (upstream _ _) as [exc|response].
  { right. split; [done|]. by exists exc. }
  destruct (getcode response =? 200); cbn [negb].
  2:{ right. split; [done|]. by eexists. }
  destruct (Str.startswith (gettype response) "audio/"); cbn [negb].
  2:{ right. split; [done|]. by eexists. }
  destruct (read response) as [exc|payload].
  - right. split; [done|]. by exists exc.
  - by left.
Qed.

(** X5: every request adds to the log and changes nothing that was there:
    one warning when the request is turned away (403, 405, 400, 503, 429),
    one information record when it is answered 200, and an information
    record followed by an error record when it is answered 502. *)
Theorem log_of_a_request upstream now environ w :
  let r := fst (voicetext upstream now environ w) in
  let w' := snd (voicetext upstream now environ w) in
  ∃ new, records w' = records w ++ new ∧
    (levelname <$> new) =
      (if bool_decide (status r = _CODE_200) then [INFO]
       else if bool_decide (status r = _CODE_502) then [INFO; ERROR]
       else [WARNING]).
Proof.
  cbv zeta.
  destruct (voicetext_stages upstream now environ w)
    as [[Ha ->]|[(Ha & Hua & ->)|[(Ha & Hua & Hm & ->)|[(Hc & Hq & ->)|[Hc Hv]]]]].
  1-4: by eexists [_].
  rewrite (voicetext_valid _ _ _ _ _ Hv). unfold rate_limit. cbv zeta.
  destruct (check_levels _ _) as [[]|]; cbn [deny fst snd].
  1-2: by eexists [_].
  match goal with |- context [fetch upstream ?d ?w0] =>
    pose proof (fetch_records upstream d w0) as Hrec;
    destruct (fetch upstream d w0) as [r w']
  end.
  cbn [fst snd]. destruct Hrec as [[-> Hrec]|[-> [detail Hrec]]]; rewrite Hrec; simpl.
  - by eexists [_].
  - rewrite <- app_assoc. by eexists [_; _].
Qed.

(** ** What an admitted call leaves in the levels *)

Lemma forwarded_admitted upstream now environ w :
  forwarded (fst (voicetext upstream now environ w)) →
  let addr := default "" (environ !! "REMOTE_ADDR") in
  valid_for addr environ = true ∧
  check_levels addr (remove_expired now (limit_levels w)) = None.
Proof.
  intros Hf. cbv zeta.
  destruct (voicetext_stages upstream now environ w)
    as [[Ha Heq]|[(Ha & Hua & Heq)|[(Ha & Hua & Hm & Heq)|[(Hc & Hq & Heq)|[Hc Hv]]]]].
  1-4: rewrite Heq in Hf; by destruct Hf.
  split; [done|].
  destruct (check_levels _ _) as [d|] eqn:Hd; [|done].
  rewrite (voicetext_denial_response _ _ _ _ _ d Hv Hd) in Hf.
  destruct d; by destruct Hf.
Qed.

Lemma expire_level_caller now level a :
  lookup (expire_level now level) !! a =
    match lookup level !! a with
    | Some i => if created i <? now - within level then None else Some i
    | None => None
    end.
Proof.
  apply option_eq. intros j. rewrite lookup_expire_level, expire_lookup_Some.
  destruct (lookup level !! a) as [i|]; [|naive_solver].
  destruct (Z.ltb_spec (created i) (now - within level)); naive_solver lia.
Qed.

(** X6: a call that is let through is counted once on every level: where
    the caller has no entry, or one that is older than the window, the
    level gets a new entry created now with one call; elsewhere the
    caller's entry keeps its creation time and counts one call more. *)
Theorem admitted_call_counted upstream now environ w k level :
  forwarded (fst (voicetext upstream now environ w)) →
  limit_levels w !! k = Some level →
  let addr := default "" (environ !! "REMOTE_ADDR") in
  ∃ level', limit_levels (snd (voicetext upstream now environ w)) !! k = Some level' ∧
    policy level' = policy level ∧
    lookup level' !! addr = Some (counted now level (lookup level !! addr)).
Proof.
  intros Hf Hk. cbv zeta.
  destruct (forwarded_admitted _ _ _ _ Hf) as [Hv Hc].
  rewrite (voicetext_levels _ _ _ _ _ Hv), Hc.
  exists (update_level now (default "" (environ !! "REMOTE_ADDR")) (expire_level now level)).
  rewrite update_levels_lookup, remove_expired_lookup, Hk.
  split; [done|]. split; [done|].
  rewrite update_level_caller. unfold updated_info, counted.
  rewrite expire_level_caller.
  destruct (lookup level !! _) as [i|]; [|done].
  by destruct (created i <? now - within level).
Qed.

Lemma admitted_call_counted_witness :
  ∃ level',
    limit_levels (snd (voicetext wav_upstream 61 (get_request caller sample_query)
                                 world_after_25)) !! 0%nat = Some level' ∧
    policy level' = (60, 25, 5) ∧
    lookup level' !! caller = Some (Info 61 1).
Proof.
  apply (admitted_call_counted wav_upstream 61 (get_request caller sample_query)
           world_after_25 0
           (level_at 0 (limit_levels world_after_25))).
  - vm_compute. by left.
  - vm_compute. reflexivity.
Defined.

(** X7: a request changes nothing for the callers other than its own: on
    every level, an entry of another caller that is there after the request
    was there before, the same; and an entry of another caller that was
    there before and is not older than the window is there after, the
    same. *)
Theorem other_callers_untouched upstream now environ w b :
  b ≠ default "" (environ !! "REMOTE_ADDR") →
  let levels' := limit_levels (snd (voicetext upstream now environ w)) in
  (∀ k level' i, levels' !! k = Some level' → lookup level' !! b = Some i →
     ∃ level, limit_levels w !! k = Some level ∧ policy level' = policy level ∧
       lookup level !! b = Some i) ∧
  (∀ k level i, limit_levels w !! k = Some level → lookup level !! b = Some i →
     now - created i ≤ within level →
     ∃ level', levels' !! k = Some level' ∧ policy level' = policy level ∧
       lookup level' !! b = Some i).
Proof.
  intros Hb. cbv zeta.
  pose proof (voicetext_handled upstream now environ w) as Hh.
  destruct (voicetext upstream now environ w) as [r w']. cbn [fst snd] in *.
  assert (∀ addr, valid_for addr environ = true →
            addr = default "" (environ !! "REMOTE_ADDR")) as Haddr.
  { intros addr (Ha & _)%valid_for_spec. by rewrite Ha. }
  destruct Hh as [Hst Hl Hn|a d Hva Hc Heq|a Hva Hc Hf Hl].
  - rewrite Hl. split; [by eauto|]. intros k level i Hk Hi _. by eauto.
  - pose proof (limit_levels_deny d a
      (set_levels (remove_expired now (limit_levels w)) w)) as Hd.
    rewrite <- Heq in Hd. cbn [snd set_levels limit_levels] in Hd. rewrite Hd.
    split.
    + intros k level' i Hk Hi.
      destruct (remove_expired_no_new _ _ _ _ Hk) as (level & ? & ? & _ & Hsame).
      exists level. eauto.
    + intros k level i Hk Hi Hlive. exists (expire_level now level).
      rewrite remove_expired_lookup, Hk. split; [done|]. split; [done|].
      by apply expire_level_Some.
  - rewrite Hl. apply Haddr in Hva as ->. split.
    + intros k level' i Hk Hi.
      rewrite update_levels_lookup in Hk.
      destruct (remove_expired now (limit_levels w) !! k) as [swept|] eqn:Hs; [|done].
      injection Hk as <-. rewrite update_level_other in Hi by done.
      destruct (remove_expired_no_new _ _ _ _ Hs) as (level & ? & ? & _ & Hsame).
      exists level. eauto.
    + intros k level i Hk Hi Hlive.
      exists (update_level now (default "" (environ !! "REMOTE_ADDR")) (expire_level now level)).
      rewrite update_levels_lookup, remove_expired_lookup, Hk.
      split; [done|]. split; [done|].
      rewrite update_level_other by done. by apply expire_level_Some.
Qed.

Lemma other_callers_untouched_witness :
  ∃ level',
    limit_levels (snd (voicetext wav_upstream 30 (get_request (host 1) sample_query)
                                 world_after_25)) !! 1%nat = Some level' ∧
    policy level' = (86400, 500, 100) ∧
    lookup level' !! caller = Some (Info 0 25).
Proof.
  pose proof (other_callers_untouched wav_upstream 30 (get_request (host 1) sample_query)
                world_after_25 caller) as H.
  destruct H as [_ H]; [vm_compute; discriminate|].
  apply (H 1%nat (level_at 1 (limit_levels world_after_25)) (Info 0 25));
    vm_compute; first [reflexivity | discriminate].
Defined.

(** ** The call counts *)

Lemma counts_within_cap_expire now level :
  counts_within_cap level → counts_within_cap (expire_level now level).
Proof.
  intros Hc a i Hi. apply expire_level_Some in Hi as [Hi _]. by apply (Hc a).
Qed.

Lemma counts_within_cap_update now a level :
  counts_within_cap level → check_level a level = None →
  counts_within_cap (update_level now a level).
Proof.
  intros Hc Hcheck b i Hi.
  change (max_single (update_level now a level)) with (max_single level).
  destruct (decide (a = b)) as [<-|Hne].
  - rewrite update_level_caller in Hi. injection Hi as <-.
    unfold updated_info, check_level in *.
    destruct (lookup level !! a) as [j|] eqn:Hj; simpl; [|lia].
    destruct (Z.geb_spec (calls j) (max_single level)); [done|].
    specialize (Hc a j Hj). lia.
  - rewrite update_level_other in Hi by done. by apply (Hc b).
Qed.

Lemma counts_within_cap_handle c w :
  Forall counts_within_cap (limit_levels w) →
  Forall counts_within_cap (limit_levels (snd (handle c w))).
Proof.
  intros Hinv. unfold handle.
  assert (Forall counts_within_cap (remove_expired (call_now c) (limit_levels w))) as Hswept.
  { apply Forall_fmap. eapply Forall_impl; [exact Hinv|].
    intros level. apply counts_within_cap_expire. }
  destruct (voicetext_handled (call_upstream c) (call_now c) (call_environ c) w)
    as [Hst Hl Hn|a d Hva Hc Heq|a Hva Hc Hf Hl].
  - by rewrite Hl.
  - pose proof (limit_levels_deny d a
      (set_levels (remove_expired (call_now c) (limit_levels w)) w)) as Hd.
    destruct (voicetext _ _ _ _) as [r w']. rewrite <- Heq in Hd. simpl in *.
    by rewrite Hd.
  - rewrite Hl. apply Forall_fmap.
    rewrite check_levels_None in Hc.
    apply Forall_forall. intros level Hin. simpl.
    apply counts_within_cap_update; [|by apply Hc].
    by eapply Forall_forall in Hswept.
Qed.

(** X8: starting from empty lookups and after any sequence of requests
    whatever, every entry of every level counts at least one call and at
    most the level's per-caller cap (one call, where the cap is below one:
    the first call of a caller is not checked against it). *)
Theorem calls_never_exceed_cap cs w :
  Forall (λ level, lookup level = ∅) (limit_levels w) →
  ∀ level a i,
    level ∈ limit_levels (snd (serve cs w)) →
    lookup level !! a = Some i →
    1 ≤ calls i ∧ calls i ≤ Z.max 1 (max_single level).
Proof.
  intros Hinit.
  assert (Forall counts_within_cap (limit_levels (snd (serve cs w)))) as Hinv.
  { assert (Forall counts_within_cap (limit_levels w)) as H0.
    { eapply Forall_impl; [exact Hinit|]. intros level Hempty a i Hi.
      by rewrite Hempty, lookup_empty in Hi. }
    clear Hinit. revert w H0. induction cs as [|c cs IH]; intros w H0; [done|].
    rewrite serve_cons. cbn [snd]. by apply IH, counts_within_cap_handle. }
  intros level a i Hin Hi. rewrite Forall_forall in Hinv. by apply (Hinv level Hin a).
Qed.

Lemma calls_never_exceed_cap_witness :
  let level := level_at 0 (limit_levels (snd (serve (calls_at 0 caller 30) initial_world))) in
  1 ≤ calls (Info 0 25) ∧ calls (Info 0 25) ≤ Z.max 1 (max_single level).
Proof.
  cbv zeta.
  apply (calls_never_exceed_cap (calls_at 0 caller 30) initial_world) with (a := caller).
  - unfold initial_world, _limit_levels; simpl.
    repeat (apply Forall_cons; split; [reflexivity|]). apply Forall_nil_2.
  - vm_compute. apply list_elem_of_here.
  - vm_compute. reflexivity.
Defined.

(** ** Which level answers *)

(** X9: when a level denies a caller and every level before it in the list
    lets the caller pass, the answer and the warning are those of that
    level: 503 with the number of entries of the level, or 429 with the
    caller's call count and address, each with the level's window; the
    levels after it are not looked at. *)
Theorem first_denying_level_answers upstream now environ addr w i level d :
  valid_for addr environ = true →
  remove_expired now (limit_levels w) !! i = Some level →
  forallb (passes addr) (take i (remove_expired now (limit_levels w))) = true →
  check_level addr level = Some d →
  voicetext upstream now environ w =
    deny d addr (set_levels (remove_expired now (limit_levels w)) w) ∧
  d = match lookup level !! addr with
      | None => OverCapacity (Z.of_nat (size (lookup level))) (within level)
      | Some entry => TooManyCalls (calls entry) (within level)
      end.
Proof.
  intros Hv Hi Hbefore Hd. split.
  - apply (voicetext_denied _ _ _ addr); [done|].
    by apply (check_levels_first _ _ i level).
  - unfold check_level in Hd. destruct (lookup level !! addr) as [entry|].
    + destruct (calls entry >=? max_single level); by simplify_eq.
    + destruct (Z.of_nat (size (lookup level)) >=? max_total level); by simplify_eq.
Qed.

Lemma first_denying_level_answers_witness :
  voicetext wav_upstream 30 (get_request caller sample_query) world_after_25 =
    deny (TooManyCalls 25 60) caller
         (set_levels (remove_expired 30 (limit_levels world_after_25)) world_after_25) ∧
  TooManyCalls 25 60 =
    match lookup (level_at 0 (remove_expired 30 (limit_levels world_after_25))) !! caller with
    | None => OverCapacity
                (Z.of_nat (size (lookup (level_at 0 (remove_expired 30 (limit_levels world_after_25))))))
                (within (level_at 0 (remove_expired 30 (limit_levels world_after_25))))
    | Some entry =>
        TooManyCalls (calls entry)
                     (within (level_at 0 (remove_expired 30 (limit_levels world_after_25))))
    end.
Proof.
  apply (first_denying_level_answers wav_upstream 30 (get_request caller sample_query)
           caller world_after_25 0
           (level_at 0 (remove_expired 30 (limit_levels world_after_25)))
           (TooManyCalls 25 60)); vm_compute; reflexivity.
Defined.

(** ** No expired entry is left behind *)

(** X10: after a request that passes validation, on levels whose windows
    are not negative, no level holds an entry older than its window: every
    entry was created at now - within or later. *)
Theorem no_expired_entry_left upstream now environ addr w :
  valid_for addr environ = true →
  Forall (λ level, 0 ≤ within level) (limit_levels w) →
  ∀ level a i,
    level ∈ limit_levels (snd (voicetext upstream now environ w)) →
    lookup level !! a = Some i →
    now - within level ≤ created i.
Proof.
  intros Hv Hwin level' a i Hin Hi.
  rewrite (voicetext_levels _ _ _ addr) in Hin by done.
  assert (∀ level, level ∈ remove_expired now (limit_levels w) →
            0 ≤ within level ∧
            ∀ b j, lookup level !! b = Some j → now - within level ≤ created j) as Hswept.
  { intros swept (level & -> & Hl)%list_elem_of_fmap. split.
    - rewrite Forall_forall in Hwin. exact (Hwin level Hl).
    - intros b j Hj. apply expire_level_Some in Hj as [_ Hj]. simpl. lia. }
  destruct (check_levels _ _) as [d|].
  - destruct (Hswept level' Hin) as [_ Hall]. by apply (Hall a).
  - apply list_elem_of_fmap in Hin as (swept & -> & Hs).
    destruct (Hswept swept Hs) as [Hw Hall].
    change (within (update_level now addr swept)) with (within swept).
    destruct (decide (addr = a)) as [<-|Hne].
    + rewrite update_level_caller in Hi. injection Hi as <-.
      unfold updated_info. destruct (lookup swept !! addr) as [j|] eqn:Hj; simpl.
      * by apply (Hall addr).
      * lia.
    + rewrite update_level_other in Hi by done. by apply (Hall a).
Qed.

Lemma no_expired_entry_left_witness :
  61 - within (level_at 0 (limit_levels (snd (voicetext wav_upstream 61
                 (get_request caller sample_query) world_after_25))))
  ≤ created (Info 61 1).
Proof.
  apply (no_expired_entry_left wav_upstream 61 (get_request caller sample_query) caller
           world_after_25) with (a := caller).
  - vm_compute; reflexivity.
  - vm_compute. repeat (apply Forall_cons; split; [discriminate|]). apply Forall_nil_2.
  - vm_compute. apply list_elem_of_here.
  - vm_compute. reflexivity.
Defined.

(** * The responders for unresolved requests *)

(** ** Characters *)

Lemma dash_or_period_is_component a :
  is_dash_or_period a = true → is_component_character a = true.
Proof.
  unfold is_dash_or_period, is_component_character.
  destruct (is_dash a), (is_period a); simpl; [done..|discriminate].
Qed.

Lemma component_is_path a :
  is_component_character a = true → is_path_character a = true.
Proof.
  unfold is_component_character, is_path_character.
  destruct (is_dash a), (is_period a), (in_range "a" "z" a), (in_range "0" "9" a);
    simpl; rewrite ?orb_true_r; done.
Qed.

Lemma component_is_no_slash a :
  is_component_character a = true → Ascii.eqb a "/" = false.
Proof.
  destruct (Ascii.eqb_spec a "/") as [->|]; [|done]. vm_compute. discriminate.
Qed.

Lemma lower_char_class a :
  is_path_character a = true →
  is_component_character (Str.lower_char a) = true ∨ Str.lower_char a = "/"%char.
Proof.
  destruct a as [[] [] [] [] [] [] [] []]; vm_compute; intros H;
    first [discriminate H | by left | by right].
Qed.

Lemma lower_char_dash_or_period a :
  is_dash_or_period (Str.lower_char a) = is_dash_or_period a.
Proof. destruct a as [[] [] [] [] [] [] [] []]; reflexivity. Qed.

Lemma lower_char_fixed a :
  is_component_character a = true ∨ a = "/"%char → Str.lower_char a = a.
Proof.
  destruct a as [[] [] [] [] [] [] [] []]; vm_compute; intros [H|H];
    first [discriminate H | reflexivity].
Qed.

(** ** Strings, character by character *)

Lemma all_chars_impl (p q : ascii → bool) s :
  (∀ a, p a = true → q a = true) → all_chars p s = true → all_chars q s = true.
Proof.
  intros Hpq. induction s as [|a s IH]; simpl; [done|].
  intros [Ha Hs]%andb_true_iff. rewrite (Hpq a Ha). auto.
Qed.

Lemma all_chars_app p s1 s2 :
  all_chars p (s1 +:+ s2) = all_chars p s1 && all_chars p s2.
Proof.
  induction s1 as [|a s1 IH]; simpl; [done|]. by rewrite IH, andb_assoc.
Qed.

Lemma head_in_app_sep chars s sep rest :
  chars sep = false →
  head_in chars (s +:+ String sep rest) = head_in chars s.
Proof. intros Hsep. by destruct s. Qed.

Lemma no_adjacent_app_sep chars s sep rest :
  chars sep = false →
  no_adjacent chars (s +:+ String sep rest) = no_adjacent chars s && no_adjacent chars rest.
Proof.
  intros Hsep. induction s as [|a s IH]; simpl.
  - by rewrite Hsep.
  - by rewrite IH, head_in_app_sep, andb_assoc.
Qed.

Lemma no_adjacent_impl (p q : ascii → bool) s :
  (∀ a, p a = true → q a = true) → no_adjacent q s = true → no_adjacent p s = true.
Proof.
  intros Hpq. induction s as [|a s IH]; simpl; [done|].
  intros [Ha Hs]%andb_true_iff. rewrite IH by done. rewrite andb_true_r.
  destruct (p a) eqn:Hpa; [|done]. rewrite (Hpq a Hpa) in Ha. simpl in *.
  destruct s as [|b s]; [done|]. simpl in *.
  destruct (p b) eqn:Hpb; [|done]. by rewrite (Hpq b Hpb) in Ha.
Qed.

(** ** The substitutions *)

Lemma sub_each_all matches s :
  all_chars (λ a, negb (matches a)) (sub_each matches s) = true.
Proof.
  induction s as [|a s IH]; simpl; [done|].
  destruct (matches a) eqn:Ha; simpl; [done|]. by rewrite Ha.
Qed.

Lemma sub_each_fixed matches s :
  all_chars (λ a, negb (matches a)) s = true → sub_each matches s = s.
Proof.
  induction s as [|a s IH]; simpl; [done|].
  intros [Ha Hs]%andb_true_iff. apply negb_true_iff in Ha. by rewrite Ha, IH.
Qed.

Lemma sub_runs_from_cons matches repl inside a s :
  sub_runs_from matches repl inside (String a s) =
    if matches a then
      if inside then sub_runs_from matches repl true s
      else if head_in matches s then String repl (sub_runs_from matches repl true s)
           else String a (sub_runs_from matches repl false s)
    else String a (sub_runs_from matches repl false s).
Proof. destruct s; reflexivity. Qed.

Lemma sub_runs_from_all p matches repl inside s :
  p repl = true → all_chars p s = true →
  all_chars p (sub_runs_from matches repl inside s) = true.
Proof.
  intros Hrepl. revert inside. induction s as [|a s IH]; intros inside; [done|].
  cbn [all_chars]. intros [Ha Hs]%andb_true_iff. rewrite sub_runs_from_cons.
  destruct (matches a); [destruct inside; [|destruct (head_in matches s)]|];
    cbn [all_chars]; rewrite ?Hrepl, ?Ha, ?IH; done.
Qed.

(** After a substitution no two characters of the class are left next to
    each other, and what follows a replaced run does not begin with one. *)
Lemma sub_runs_from_no_adjacent matches repl inside s :
  no_adjacent matches (sub_runs_from matches repl inside s) = true ∧
  (inside = true → head_in matches (sub_runs_from matches repl inside s) = false) ∧
  (head_in matches s = false →
   head_in matches (sub_runs_from matches repl inside s) = false).
Proof.
  revert inside. induction s as [|a s IH]; intros inside; [done|].
  rewrite sub_runs_from_cons. cbn [head_in].
  destruct (matches a) eqn:Ha; [destruct inside; [|destruct (head_in matches s) eqn:Hh]|].
  - destruct (IH true) as (H1 & H2 & H3). split; [done|]. split; [auto|done].
  - destruct (IH true) as (H1 & H2 & H3).
    split; [|split; done]. cbn [no_adjacent]. rewrite H1, H2 by done.
    by rewrite andb_false_r.
  - destruct (IH false) as (H1 & H2 & H3).
    split; [|split; done]. cbn [no_adjacent]. rewrite H1, H3 by done.
    by rewrite andb_false_r.
  - destruct (IH false) as (H1 & H2 & H3).
    split; [|split; intros; cbn [head_in]; done].
    cbn [no_adjacent]. by rewrite Ha, H1.
Qed.

Lemma sub_runs_fixed matches repl s :
  no_adjacent matches s = true → sub_runs matches repl s = s.
Proof.
  unfold sub_runs. induction s as [|a s IH]; [done|].
  cbn [no_adjacent]. intros [Ha Hs]%andb_true_iff.
  rewrite sub_runs_from_cons, IH by done.
  destruct (matches a); [|done].
  destruct (head_in matches s); [discriminate|done].
Qed.

Lemma lower_all s :
  all_chars is_path_character s = true →
  all_chars (λ a, is_component_character a || Ascii.eqb a "/") (Str.lower s) = true.
Proof.
  induction s as [|a s IH]; simpl; [done|].
  intros [Ha Hs]%andb_true_iff. rewrite IH by done. rewrite andb_true_r.
  destruct (lower_char_class a Ha) as [-> | ->]; [done|by rewrite orb_true_r].
Qed.

Lemma lower_head_in s :
  head_in is_dash_or_period (Str.lower s) = head_in is_dash_or_period s.
Proof. destruct s; simpl; [done|apply lower_char_dash_or_period]. Qed.

Lemma lower_no_adjacent s :
  no_adjacent is_dash_or_period (Str.lower s) = no_adjacent is_dash_or_period s.
Proof.
  induction s as [|a s IH]; simpl; [done|].
  by rewrite IH, lower_head_in, lower_char_dash_or_period.
Qed.

Lemma lower_fixed s :
  all_chars (λ a, is_component_character a || Ascii.eqb a "/") s = true →
  Str.lower s = s.
Proof.
  induction s as [|a s IH]; simpl; [done|].
  intros [Ha Hs]%andb_true_iff. rewrite IH by done. f_equal.
  apply lower_char_fixed. apply orb_true_iff in Ha as [Ha|Ha]; [by left|].
  right. by apply Ascii.eqb_eq.
Qed.

(** ** Splitting, stripping and joining *)

Lemma split_cons c a s :
  Str.split c (String a s) =
    if Ascii.eqb a c then "" :: Str.split c s
    else String a (hd "" (Str.split c s)) :: tl (Str.split c s).
Proof. simpl. destruct (Ascii.eqb a c); [done|]. by destruct (Str.split c s). Qed.

Lemma split_not_nil c s : Str.split c s ≠ [].
Proof.
  destruct s as [|a s]; [done|]. rewrite split_cons. by destruct (Ascii.eqb a c).
Qed.

Lemma split_hd_tl c s : Str.split c s = hd "" (Str.split c s) :: tl (Str.split c s).
Proof. pose proof (split_not_nil c s). by destruct (Str.split c s). Qed.

Lemma split_all c p s :
  all_chars (λ a, p a || Ascii.eqb a c) s = true →
  Forall (λ w, all_chars p w = true) (Str.split c s).
Proof.
  induction s as [|a s IH]; [by repeat constructor|].
  cbn [all_chars]. intros [Ha Hs]%andb_true_iff. specialize (IH Hs).
  rewrite split_cons. destruct (Ascii.eqb a c) eqn:Hac.
  - by constructor.
  - rewrite orb_false_r in Ha. rewrite split_hd_tl in IH.
    apply Forall_cons in IH as [Hw Hws]. constructor; [|done].
    cbn [all_chars]. by rewrite Ha, Hw.
Qed.

Lemma split_no_adjacent c chars s :
  chars c = false → no_adjacent chars s = true →
  Forall (λ w, no_adjacent chars w = true) (Str.split c s) ∧
  (head_in chars (hd "" (Str.split c s)) = true → head_in chars s = true).
Proof.
  intros Hc. induction s as [|a s IH]; [by repeat constructor|].
  cbn [no_adjacent]. intros [Ha Hs]%andb_true_iff.
  destruct (IH Hs) as [Hall Hhead].
  rewrite split_cons. destruct (Ascii.eqb_spec a c) as [->|Hac].
  - split; [by constructor|]. simpl. done.
  - rewrite split_hd_tl in Hall. apply Forall_cons in Hall as [Hw Hws].
    split; [|done]. constructor; [|done].
    cbn [no_adjacent]. rewrite Hw, andb_true_r.
    destruct (chars a); [|done]. simpl in *.
    destruct (head_in chars (hd "" (Str.split c s))); [|done].
    by rewrite Hhead in Ha.
Qed.

Lemma split_no_sep c x :
  all_chars (λ a, negb (Ascii.eqb a c)) x = true → Str.split c x = [x].
Proof.
  induction x as [|a x IH]; [done|].
  cbn [all_chars]. intros [Ha Hx]%andb_true_iff. apply negb_true_iff in Ha.
  by rewrite split_cons, Ha, IH.
Qed.

Lemma split_app_sep c x rest :
  all_chars (λ a, negb (Ascii.eqb a c)) x = true →
  Str.split c (x +:+ String c rest) = x :: Str.split c rest.
Proof.
  induction x as [|a x IH].
  - intros _. simpl. by rewrite Ascii.eqb_refl.
  - cbn [all_chars]. intros [Ha Hx]%andb_true_iff. apply negb_true_iff in Ha.
    change (String a x +:+ String c rest) with (String a (x +:+ String c rest)).
    by rewrite split_cons, Ha, IH.
Qed.

Lemma join_cons sep x l :
  l ≠ [] → Str.join sep (x :: l) = x +:+ sep +:+ Str.join sep l.
Proof. by destruct l. Qed.

Lemma split_join c components :
  components ≠ [] →
  Forall (λ x, all_chars (λ a, negb (Ascii.eqb a c)) x = true) components →
  Str.split c (Str.join (String c "") components) = components.
Proof.
  induction components as [|x l IH]; [done|]. intros _ [Hx Hl]%Forall_cons.
  destruct l as [|y l]; [by apply split_no_sep|].
  rewrite join_cons by done.
  change (x +:+ String c "" +:+ Str.join (String c "") (y :: l))
    with (x +:+ String c (Str.join (String c "") (y :: l))).
  rewrite split_app_sep by done. by rewrite IH.
Qed.

Lemma all_chars_join p sep components :
  all_chars p sep = true →
  Forall (λ x, all_chars p x = true) components →
  all_chars p (Str.join sep components) = true.
Proof.
  intros Hsep. induction components as [|x l IH]; [done|]. intros [Hx Hl]%Forall_cons.
  destruct l as [|y l]; [done|].
  rewrite join_cons by done. rewrite !all_chars_app, Hx, Hsep. by apply IH.
Qed.

Lemma no_adjacent_join chars sep components :
  chars sep = false →
  Forall (λ x, no_adjacent chars x = true) components →
  no_adjacent chars (Str.join (String sep "") components) = true.
Proof.
  intros Hsep. induction components as [|x l IH]; [done|]. intros [Hx Hl]%Forall_cons.
  destruct l as [|y l]; [done|].
  rewrite join_cons by done.
  change (x +:+ String sep "" +:+ Str.join (String sep "") (y :: l))
    with (x +:+ String sep (Str.join (String sep "") (y :: l))).
  rewrite no_adjacent_app_sep, Hx by done. by apply IH.
Qed.

Lemma last_in_cons chars a s :
  last_in chars (String a s) = if String.eqb s "" then chars a else last_in chars s.
Proof. by destruct s. Qed.

Lemma rstrip_cons chars a s :
  Str.rstrip chars (String a s) =
    if String.eqb (Str.rstrip chars s) "" && chars a then ""
    else String a (Str.rstrip chars s).
Proof. simpl. destruct (Str.rstrip chars s); [by destruct (chars a)|done]. Qed.

Lemma lstrip_all p chars s :
  all_chars p s = true → all_chars p (Str.lstrip chars s) = true.
Proof.
  induction s as [|a s IH]; [done|]. cbn [all_chars Str.lstrip].
  intros [Ha Hs]%andb_true_iff. destruct (chars a); [auto|].
  cbn [all_chars]. by rewrite Ha, Hs.
Qed.

Lemma lstrip_no_adjacent p chars s :
  no_adjacent p s = true → no_adjacent p (Str.lstrip chars s) = true.
Proof.
  induction s as [|a s IH]; [done|]. cbn [no_adjacent Str.lstrip].
  intros [Ha Hs]%andb_true_iff. destruct (chars a); [auto|].
  cbn [no_adjacent]. by rewrite Ha, Hs.
Qed.

Lemma lstrip_head chars s : head_in chars (Str.lstrip chars s) = false.
Proof.
  induction s as [|a s IH]; [done|]. cbn [Str.lstrip].
  destruct (chars a) eqn:Ha; [done|]. by cbn [head_in].
Qed.

Lemma lstrip_last p chars s :
  last_in p s = false → last_in p (Str.lstrip chars s) = false.
Proof.
  induction s as [|a s IH]; [done|]. rewrite last_in_cons. cbn [Str.lstrip].
  destruct (chars a); [|by rewrite last_in_cons].
  destruct s as [|b s]; [done|]. simpl String.eqb. auto.
Qed.

Lemma lstrip_fixed chars s : head_in chars s = false → Str.lstrip chars s = s.
Proof. destruct s as [|a s]; [done|]. simpl. by intros ->. Qed.

Lemma rstrip_head p chars s :
  head_in p (Str.rstrip chars s) = true → head_in p s = true.
Proof.
  destruct s as [|a s]; [done|]. rewrite rstrip_cons.
  by destruct (String.eqb (Str.rstrip chars s) "" && chars a).
Qed.

Lemma rstrip_all p chars s :
  all_chars p s = true → all_chars p (Str.rstrip chars s) = true.
Proof.
  induction s as [|a s IH]; [done|]. cbn [all_chars]. rewrite rstrip_cons.
  intros [Ha Hs]%andb_true_iff.
  destruct (String.eqb (Str.rstrip chars s) "" && chars a); [done|].
  cbn [all_chars]. by rewrite Ha, IH.
Qed.

Lemma rstrip_no_adjacent p chars s :
  no_adjacent p s = true → no_adjacent p (Str.rstrip chars s) = true.
Proof.
  induction s as [|a s IH]; [done|]. cbn [no_adjacent]. rewrite rstrip_cons.
  intros [Ha Hs]%andb_true_iff.
  destruct (String.eqb (Str.rstrip chars s) "" && chars a); [done|].
  cbn [no_adjacent]. rewrite IH, andb_true_r by done.
  destruct (p a); [|done]. simpl in *.
  destruct (head_in p (Str.rstrip chars s)) eqn:Hh; [|done].
  by rewrite (rstrip_head _ _ _ Hh) in Ha.
Qed.

Lemma rstrip_last chars s : last_in chars (Str.rstrip chars s) = false.
Proof.
  induction s as [|a s IH]; [done|]. rewrite rstrip_cons.
  destruct (String.eqb_spec (Str.rstrip chars s) "") as [He|Hne]; cbn [andb].
  - destruct (chars a) eqn:Ha; [done|]. rewrite last_in_cons, He. by simpl.
  - rewrite last_in_cons. apply String.eqb_neq in Hne. by rewrite Hne.
Qed.

Lemma rstrip_fixed chars s : last_in chars s = false → Str.rstrip chars s = s.
Proof.
  induction s as [|a s IH]; [done|]. rewrite last_in_cons, rstrip_cons.
  destruct (String.eqb_spec s "") as [->|Hne].
  - intros ->. by rewrite andb_false_r.
  - intros Hl. rewrite IH by done. apply String.eqb_neq in Hne. by rewrite Hne.
Qed.

Lemma strip_fixed chars s :
  head_in chars s = false → last_in chars s = false → Str.strip chars s = s.
Proof.
  intros Hh Hl. unfold Str.strip. rewrite rstrip_fixed by done. by apply lstrip_fixed.
Qed.

(** ** The new path of [get_paths] *)

Lemma good_component_spec c :
  good_component c = true ↔
  c ≠ "" ∧ all_chars is_component_character c = true ∧
  head_in is_dash_or_period c = false ∧ last_in is_dash_or_period c = false ∧
  no_adjacent is_dash_or_period c = true.
Proof.
  unfold good_component.
  rewrite !andb_true_iff, !negb_true_iff, String.eqb_neq. tauto.
Qed.

Lemma strip_good w :
  all_chars is_component_character w = true →
  no_adjacent is_dash_or_period w = true →
  Str.strip is_dash_or_period w ≠ "" →
  good_component (Str.strip is_dash_or_period w) = true.
Proof.
  intros Hall Hadj Hne. apply good_component_spec. unfold Str.strip in *.
  split; [done|]. split; [by apply lstrip_all, rstrip_all|].
  split; [apply lstrip_head|]. split; [apply lstrip_last, rstrip_last|].
  by apply lstrip_no_adjacent, rstrip_no_adjacent.
Qed.

Lemma new_path_of_normal (re_filter_encoding_sub : string → string) (old_path : string) :
  normal_path (new_path_of re_filter_encoding_sub old_path).
Proof.
  unfold new_path_of.
  set (s1 := re_filter_characters_sub (re_filter_encoding_sub old_path)).
  set (s4 := re_excessive_any_sub (re_excessive_dashes_sub (re_excessive_periods_sub s1))).
  assert (all_chars is_path_character s1 = true) as H1.
  { eapply all_chars_impl; [|apply sub_each_all].
    intros a. cbv beta. by rewrite negb_involutive. }
  assert (all_chars is_path_character s4 = true) as H4.
  { unfold s4, re_excessive_any_sub, re_excessive_dashes_sub, re_excessive_periods_sub,
      sub_runs.
    repeat (apply sub_runs_from_all; [reflexivity|]). done. }
  assert (no_adjacent is_dash_or_period s4 = true) as Hadj.
  { apply sub_runs_from_no_adjacent. }
  pose proof (split_all "/" is_component_character _ (lower_all s4 H4)) as Hcomps.
  assert (no_adjacent is_dash_or_period (Str.lower s4) = true) as Hadj'
    by by rewrite lower_no_adjacent.
  destruct (split_no_adjacent "/" is_dash_or_period _ eq_refl Hadj') as [Hadjs _].
  eexists. split; [|reflexivity].
  apply forallb_forall. intros c [Hin Hne]%filter_In.
  apply in_map_iff in Hin as (w & <- & Hw). apply list_elem_of_In in Hw.
  rewrite Forall_forall in Hcomps, Hadjs.
  apply strip_good; [by apply Hcomps|by apply Hadjs|].
  by apply negb_true_iff, String.eqb_neq in Hne.
Qed.

Lemma normal_path_strings components :
  forallb good_component components = true →
  let p := "/" +:+ Str.join "/" components in
  all_chars (λ a, is_component_character a || Ascii.eqb a "/") p = true ∧
  no_adjacent is_dash_or_period p = true.
Proof.
  intros Hgood. cbv zeta.
  assert (Forall (λ c, good_component c = true) components) as Hall.
  { apply Forall_forall. intros c Hc. rewrite forallb_forall in Hgood.
    by apply Hgood, list_elem_of_In. }
  change ("/" +:+ Str.join "/" components) with (String "/" (Str.join "/" components)).
  split.
  - cbn [all_chars]. apply andb_true_iff. split; [reflexivity|].
    apply all_chars_join; [reflexivity|].
    eapply Forall_impl; [exact Hall|]. intros c (_ & Hc & _)%good_component_spec.
    eapply all_chars_impl; [|exact Hc]. intros a ->. done.
  - cbn [no_adjacent]. apply andb_true_iff. split; [reflexivity|].
    apply (no_adjacent_join is_dash_or_period "/"); [reflexivity|].
    eapply Forall_impl; [exact Hall|]. by intros c (_ & _ & _ & _ & Hc)%good_component_spec.
Qed.

Lemma strip_good_components l :
  Forall (λ c, good_component c = true) l →
  List.filter (λ component, negb (String.eqb component ""))
    (map (Str.strip is_dash_or_period) l) = l.
Proof.
  induction 1 as [|x l Hx Hl IH]; [done|].
  apply good_component_spec in Hx as (Hne & _ & Hh & Hla & _).
  cbn [map List.filter]. rewrite strip_fixed by done.
  apply String.eqb_neq in Hne. rewrite Hne. cbn [negb]. by rewrite IH.
Qed.

Lemma normal_path_components components :
  forallb good_component components = true →
  List.filter (λ component, negb (String.eqb component ""))
    (map (Str.strip is_dash_or_period)
       (Str.split "/" ("/" +:+ Str.join "/" components)))
  = components.
Proof.
  intros Hgood.
  assert (Forall (λ c, good_component c = true) components) as Hall.
  { apply Forall_forall. intros c Hc. rewrite forallb_forall in Hgood.
    by apply Hgood, list_elem_of_In. }
  change ("/" +:+ Str.join "/" components) with (String "/" (Str.join "/" components)).
  rewrite split_cons. simpl Ascii.eqb. cbv iota.
  destruct components as [|c l]; [done|].
  rewrite (split_join "/") by first
    [ done
    | eapply Forall_impl; [exact Hall|];
      intros x (_ & Hx & _)%good_component_spec;
      eapply all_chars_impl; [|exact Hx];
      intros a Ha; by rewrite (component_is_no_slash a Ha) ].
  rewrite map_cons. change (Str.strip is_dash_or_period "") with "".
  rewrite <- (strip_good_components (c :: l) Hall) at 2. done.
Qed.

Lemma new_path_of_fixed (re_filter_encoding_sub : string → string) (p : string) :
  normal_path p →
  re_filter_encoding_sub p = p →
  new_path_of re_filter_encoding_sub p = p.
Proof.
  intros (components & Hgood & ->) Hf. unfold new_path_of. rewrite Hf.
  destruct (normal_path_strings components Hgood) as [Hall Hadj].
  unfold re_filter_characters_sub. rewrite sub_each_fixed.
  2:{ eapply all_chars_impl; [|exact Hall]. intros a Ha. rewrite negb_involutive.
      apply orb_true_iff in Ha as [Ha|Ha]; [by apply component_is_path|].
      apply Ascii.eqb_eq in Ha as ->. reflexivity. }
  unfold re_excessive_periods_sub, re_excessive_dashes_sub, re_excessive_any_sub.
  rewrite (sub_runs_fixed is_period).
  2:{ eapply no_adjacent_impl; [|exact Hadj]. intros a Ha.
      unfold is_dash_or_period. by rewrite Ha, orb_true_r. }
  rewrite (sub_runs_fixed is_dash).
  2:{ eapply no_adjacent_impl; [|exact Hadj]. intros a Ha.
      unfold is_dash_or_period. by rewrite Ha. }
  rewrite (sub_runs_fixed is_dash_or_period) by done.
  rewrite lower_fixed by done.
  by rewrite normal_path_components.
Qed.

(** X11: whatever the path, the new path that [get_paths] builds is a normal
    path: a slash followed by non-empty components with single slashes
    between them, each of lower-case letters, digits, dashes and periods,
    with no dash or period at either end and no two of them in a row.  As a
    string it consists of lower-case letters, digits, dashes, periods and
    slashes only, and is not empty. *)
Theorem new_path_is_normal (re_filter_encoding_sub : string → string) (old_path : string) :
  let new_path := new_path_of re_filter_encoding_sub old_path in
  normal_path new_path ∧
  new_path ≠ "" ∧
  all_chars (λ a, is_component_character a || Ascii.eqb a "/") new_path = true ∧
  no_adjacent is_dash_or_period new_path = true.
Proof.
  cbv zeta. pose proof (new_path_of_normal re_filter_encoding_sub old_path) as Hn.
  split; [done|]. split; [done|].
  destruct Hn as (components & Hgood & ->).
  apply (normal_path_strings components Hgood).
Qed.

(** X12: a normal path that the encoding filter leaves alone is its own new
    path, so building the new path twice gives what building it once
    gives. *)
Theorem normal_path_is_kept (re_filter_encoding_sub : string → string) (p : string) :
  normal_path p →
  re_filter_encoding_sub p = p →
  new_path_of re_filter_encoding_sub p = p ∧
  ((∀ q, normal_path q → re_filter_encoding_sub q = q) →
   ∀ s, new_path_of re_filter_encoding_sub (new_path_of re_filter_encoding_sub s)
        = new_path_of re_filter_encoding_sub s).
Proof.
  intros Hp Hf. split; [by apply new_path_of_fixed|].
  intros Hall s. apply new_path_of_fixed; [apply new_path_of_normal|].
  apply Hall, new_path_of_normal.
Qed.

Lemma normal_path_is_kept_witness :
  new_path_of (λ s, s) "/services/voicetext-2.0/api" = "/services/voicetext-2.0/api".
Proof.
  destruct (normal_path_is_kept (λ s, s) "/services/voicetext-2.0/api") as [H _];
    [|reflexivity|exact H].
  exists ["services"; "voicetext-2.0"; "api"]. split; vm_compute; reflexivity.
Defined.

(** ** The responders *)

Section responders.
Variable re_filter_encoding_sub : string → string.
Variable redirects : gmap string string.
Variable response404 : list string.
Variable template301 : string → string.

(** The encoding filter has nothing to remove from a normal path. *)
Hypothesis encoding_keeps_normal : ∀ q, normal_path q → re_filter_encoding_sub q = q.

Lemma new_path_of_truthy p : truthy (Some (new_path_of re_filter_encoding_sub p)) = true.
Proof. reflexivity. Qed.

Lemma get_paths_cases environ :
  match get_paths re_filter_encoding_sub environ with
  | (old_path, Some new_path) =>
      ∃ path, old_path = Some path ∧ environ !! "PATH_INFO" = Some path ∧
        path ≠ "" ∧ ¬ normal_path path ∧
        new_path = new_path_of re_filter_encoding_sub path ∧
        new_path ≠ path ∧ normal_path new_path
  | (old_path, None) =>
      old_path = environ !! "PATH_INFO" ∧
      (old_path = None ∨ old_path = Some "" ∨
       ∃ path, old_path = Some path ∧ normal_path path)
  end.
Proof.
  unfold get_paths. destruct (environ !! "PATH_INFO") as [path|]; [|by auto].
  destruct (String.eqb_spec path "") as [->|Hne]; cbn [negb]; [by auto|].
  destruct (String.eqb_spec (new_path_of re_filter_encoding_sub path) path) as [He|Hd];
    cbn [negb].
  - split; [done|]. right; right. exists path. split; [done|].
    rewrite <- He. apply new_path_of_normal.
  - exists path. repeat split; try done; [|apply new_path_of_normal].
    intros Hn. apply Hd. apply new_path_of_fixed; auto.
Qed.

(** X13: [get_paths] returns the path of the environment as the old path.
    It proposes nothing exactly for an absent, an empty or a normal path;
    what it proposes is the new path of the old one, is a normal path and
    is not the old path. *)
Theorem get_paths_proposal environ :
  let '(old_path, proposed) := get_paths re_filter_encoding_sub environ in
  old_path = environ !! "PATH_INFO" ∧
  (proposed = None ↔
     old_path = None ∨ old_path = Some "" ∨
     ∃ path, old_path = Some path ∧ normal_path path) ∧
  (∀ new_path, proposed = Some new_path →
     normal_path new_path ∧ old_path ≠ Some new_path ∧
     new_path_of re_filter_encoding_sub <$> old_path = Some new_path).
Proof.
  pose proof (get_paths_cases environ) as Hcases.
  destruct (get_paths re_filter_encoding_sub environ) as [old_path [new_path|]].
  - destruct Hcases as (path & -> & Hp & Hne & Hnn & -> & Hd & Hn).
    split; [done|]. split.
    + split; [done|]. intros [?|[?|(q & ? & ?)]]; by simplify_eq.
    + intros ? [= <-]. split; [done|]. split; [congruence|done].
  - destruct Hcases as [Hold Hwhy]. split; [done|]. split; [done|]. by intros.
Qed.

Lemma api_normal environ w path :
  environ !! "PATH_INFO" = Some path → normal_path path →
  fst (api re_filter_encoding_sub environ w)
  = MkResponse "404 Not Found" api_headers api_response404.
Proof.
  intros Hp Hn. unfold api, get_paths. rewrite Hp.
  destruct (String.eqb path ""); cbn [negb]; [done|].
  rewrite (new_path_of_fixed _ path) by auto. by rewrite String.eqb_refl.
Qed.

(** X14: [api] answers 404 with the JSON document, or 301 with a Location
    that is a normal path other than the path requested; and a request for
    that Location is answered 404: [api] never redirects twice in a row. *)
Theorem api_redirects_once environ w :
  let r := fst (api re_filter_encoding_sub environ w) in
  r = MkResponse "404 Not Found" api_headers api_response404 ∨
  ∃ new_path,
    normal_path new_path ∧ environ !! "PATH_INFO" ≠ Some new_path ∧
    r = MkResponse "301 Moved Permanently" (api_headers ++ [("Location", new_path)])
                   (api_json ("Try " +:+ new_path +:+ " instead")) ∧
    ∀ w', fst (api re_filter_encoding_sub (<["PATH_INFO" := new_path]> environ) w')
          = MkResponse "404 Not Found" api_headers api_response404.
Proof.
  cbv zeta. pose proof (get_paths_cases environ) as Hcases. unfold api.
  destruct (get_paths re_filter_encoding_sub environ) as [old_path [new_path|]].
  - destruct Hcases as (path & -> & Hp & Hne & Hnn & -> & Hd & Hn).
    rewrite new_path_of_truthy. right.
    exists (new_path_of re_filter_encoding_sub path).
    split; [done|]. split; [congruence|]. split; [done|].
    intros w'. apply (api_normal _ _ (new_path_of re_filter_encoding_sub path)); [|done].
    apply lookup_insert_eq.
  - by left.
Qed.

(** X15: [other] raises exactly when the environment has no [PATH_INFO]
    (the test [old_path.startswith] is made on [None]); with a [PATH_INFO],
    empty or not, it answers. *)
Theorem other_raises_without_path environ w :
  (∃ exc, other re_filter_encoding_sub redirects response404 template301 environ w
          = Raise exc) ↔
  environ !! "PATH_INFO" = None.
Proof.
  unfold other, get_paths.
  destruct (environ !! "PATH_INFO") as [path|].
  - split; [|done]. intros [exc Hexc]. exfalso.
    destruct (String.eqb path ""); cbn [negb] in Hexc.
    + cbn [truthy negb] in Hexc.
      destruct (redirects !! path) as [target|].
      * by destruct (truthy (Some target)).
      * destruct (Str.startswith path "/services/"); by cbn in Hexc.
    + destruct (negb (String.eqb (new_path_of re_filter_encoding_sub path) path)).
      * by rewrite new_path_of_truthy in Hexc.
      * cbn [truthy negb] in Hexc.
        destruct (redirects !! path) as [target|].
        -- by destruct (truthy (Some target)).
        -- destruct (Str.startswith path "/services/"); by cbn in Hexc.
  - split; [done|]. intros _. by eexists.
Qed.

(** X16: a request for a path under [/services/] is never answered 404 by
    [other], unless the table of redirects sends the path to the empty
    string: the answer is 301, to the new path when the path is not normal,
    else to the entry of the table for the path, else to [/services]. *)
Theorem other_services environ w path :
  environ !! "PATH_INFO" = Some path →
  Str.startswith path "/services/" = true →
  redirects !! path ≠ Some "" →
  let location :=
    if negb (String.eqb (new_path_of re_filter_encoding_sub path) path)
    then new_path_of re_filter_encoding_sub path
    else default "/services" (redirects !! path) in
  location ≠ "" ∧
  other re_filter_encoding_sub redirects response404 template301 environ w =
    Return (MkResponse "301 Moved Permanently" (other_headers ++ [("Location", location)])
                       [template301 location],
            log WARNING ("Website redirect to " +:+ location) [] w).
Proof.
  intros Hp Hs Ht. cbv zeta. unfold other, get_paths. rewrite Hp.
  assert (String.eqb path "" = false) as Hne.
  { destruct path; [discriminate Hs|done]. }
  rewrite Hne. cbn [negb].
  destruct (negb (String.eqb (new_path_of re_filter_encoding_sub path) path)).
  - rewrite new_path_of_truthy. cbn [negb]. rewrite new_path_of_truthy. by split.
  - cbn [truthy negb]. destruct (redirects !! path) as [target|] eqn:Htarget.
    + assert (target ≠ "") as Hnt by congruence.
      cbn [default from_option id truthy]. apply String.eqb_neq in Hnt as Hnt'.
      rewrite Hnt'. by split.
    + rewrite Hs. by split.
Qed.

End responders.

Lemma get_paths_proposal_witness :
  get_paths (λ s, s) {[ "PATH_INFO" := "/API//Voice..Text/" ]}
  = (Some "/API//Voice..Text/", Some "/api/voice.text").
Proof.
  pose proof (get_paths_proposal (λ s, s) (λ q _, eq_refl)
                {[ "PATH_INFO" := "/API//Voice..Text/" ]}) as H.
  destruct (get_paths _ _) as [old_path [new_path|]] eqn:Hg.
  - destruct H as (-> & _ & H). destruct (H new_path eq_refl) as (_ & _ & Hnew).
    vm_compute in Hnew. injection Hnew as <-. vm_compute. reflexivity.
  - vm_compute in Hg. discriminate Hg.
Defined.

Lemma api_redirects_once_witness :
  fst (api (λ s, s) {[ "PATH_INFO" := "/api/voice.text" ]} initial_world)
  = MkResponse "404 Not Found" api_headers api_response404.
Proof.
  destruct (api_redirects_once (λ s, s) (λ q _, eq_refl)
              {[ "PATH_INFO" := "/API//Voice..Text/" ]} initial_world)
    as [H404|(new_path & _ & _ & H301 & Hnext)].
  - vm_compute in H404. discriminate H404.
  - vm_compute in H301. injection H301 as <-. apply (Hnext initial_world).
Defined.

Lemma other_services_witness :
  other (λ s, s) ∅ ["<h1>Not Found</h1>"] (λ path, "<a href=" +:+ path +:+ ">moved</a>")
        {[ "PATH_INFO" := "/services/voicetext" ]} initial_world
  = Return (MkResponse "301 Moved Permanently"
                       (other_headers ++ [("Location", "/services")])
                       ["<a href=/services>moved</a>"],
            log WARNING "Website redirect to /services" [] initial_world).
Proof.
  destruct (other_services (λ s, s) ∅ ["<h1>Not Found</h1>"]
              (λ path, "<a href=" +:+ path +:+ ">moved</a>")
              {[ "PATH_INFO" := "/services/voicetext" ]} initial_world
              "/services/voicetext") as [_ H].
  - vm_compute; reflexivity.
  - vm_compute; reflexivity.
  - vm_compute; discriminate.
  - rewrite H. vm_compute. reflexivity.
Defined.

(** ** The encoding filter of the source *)

Lemma filter_encoding_cons a s :
  Ascii.eqb a "%" = false →
  filter_encoding (String a s) = String a (filter_encoding s).
Proof. intros Ha. destruct s as [|b [|c s]]; simpl; by rewrite ?Ha. Qed.

Lemma filter_encoding_no_percent s :
  all_chars (λ a, negb (Ascii.eqb a "%")) s = true → filter_encoding s = s.
Proof.
  induction s as [|a s IH]; [done|]. cbn [all_chars].
  intros [Ha Hs]%andb_true_iff. apply negb_true_iff in Ha.
  by rewrite filter_encoding_cons, IH.
Qed.

(** X17: the encoding filter of the source, which drops a percent sign
    followed by two hexadecimal digits, leaves every normal path as it is:
    the premise of X12, X13 and X14 holds of the source. *)
Theorem source_filter_keeps_normal q :
  normal_path q → filter_encoding q = q.
Proof.
  intros (components & Hgood & ->).
  destruct (normal_path_strings components Hgood) as [Hall _].
  apply filter_encoding_no_percent.
  eapply all_chars_impl; [|exact Hall]. intros a Ha. cbv beta in *.
  destruct (Ascii.eqb_spec a "%") as [->|]; [|done].
  vm_compute in Ha. discriminate Ha.
Qed.

Lemma source_filter_keeps_normal_witness :
  filter_encoding "/services/voicetext-2.0/api" = "/services/voicetext-2.0/api".
Proof.
  apply (source_filter_keeps_normal "/services/voicetext-2.0/api").
  exists ["services"; "voicetext-2.0"; "api"]. split; vm_compute; reflexivity.
Defined.

(** The get_paths of the source on a path with an encoded character. *)
Example get_paths_encoded :
  get_paths filter_encoding {[ "PATH_INFO" := "/API/Voice%20Text/%zz/" ]}
  = (Some "/API/Voice%20Text/%zz/", Some "/api/voicetext/zz").
Proof. vm_compute. reflexivity. Qed.
